(** * find_unused.py: unreferenced-file report

    A shallow embedding of [find_unused.py] and the properties of its
    usage checkers, content loader, enumerator and report driver.

    Python [str] values are sequences of Unicode code points; they are
    modelled as lists of [N].  File contents are byte lists, decoded the way
    [open(path, 'r')] decodes them under the UTF-8 default encoding. *)

From Stdlib Require Import String Ascii.
From Stdlib Require Import List NArith Bool Arith Lia.
From Stdlib.Strings Require Import Byte.
Import ListNotations.

Local Open Scope list_scope.

(** ** Python strings *)

Module PyStr.

Definition codepoint := N.
Definition str := list codepoint.

(** A string literal of the source, as a sequence of code points. *)
Definition lit (s : string) : str := map N_of_ascii (list_ascii_of_string s).
Arguments lit s%_string.

Definition dquote : codepoint := 34%N.
Definition newline : codepoint := 10%N.
Definition sep : codepoint := 47%N.

Fixpoint str_eqb (a b : str) : bool :=
  match a, b with
  | [], [] => true
  | x :: a', y :: b' => N.eqb x y && str_eqb a' b'
  | _, _ => false
  end.

(** [s.startswith(prefix)] *)
Fixpoint startswith (s prefix : str) {struct prefix} : bool :=
  match prefix, s with
  | [], _ => true
  | _ :: _, [] => false
  | p :: prefix', c :: s' => N.eqb c p && startswith s' prefix'
  end.

(** [s.endswith(suffix)]: the last [len(suffix)] code points of [s] are
    [suffix]. *)
Definition endswith (s suffix : str) : bool :=
  (length suffix <=? length s) &&
  str_eqb (skipn (length s - length suffix) s) suffix.

(** [s.endswith(suffixes)] for a tuple of suffixes. *)
Definition endswith_any (s : str) (suffixes : list str) : bool :=
  existsb (endswith s) suffixes.

(** [needle in hay] *)
Fixpoint contains (needle hay : str) : bool :=
  startswith hay needle ||
  match hay with
  | [] => false
  | _ :: hay' => contains needle hay'
  end.

(** [s[n:]] *)
Definition slice_from (n : nat) (s : str) : str := skipn n s.

(** The propositional reading of [needle in hay]: a literal occurrence. *)
Definition Substring (needle hay : str) : Prop :=
  exists pre post, hay = pre ++ needle ++ post.

End PyStr.
Import PyStr.

(** ** The usage checkers *)

(** [p.rfind("/") + 1]: the index just after the last separator, 0 when
    there is none. *)
Fixpoint rfind_sep_succ (p : str) : nat :=
  match p with
  | [] => 0
  | c :: p' =>
      match rfind_sep_succ p' with
      | S i => S (S i)
      | O => if N.eqb c sep then 1 else 0
      end
  end.

(** [os.path.basename(p)]: [i = p.rfind(sep) + 1; return p[i:]]. *)
Definition basename (p : str) : str := slice_from (rfind_sep_succ p) p.

(** [check_cmake_usage(file_path, cmake_content)] *)
Definition check_cmake_usage (file_path cmake_content : str) : bool :=
  let fname := basename file_path in
  if startswith file_path (lit "src/") then
    let rel_in_cmake := slice_from 4 file_path in
    contains rel_in_cmake cmake_content
  else if startswith file_path (lit "tests/") then
    let rel_in_cmake := slice_from 6 file_path in
    contains rel_in_cmake cmake_content
  else false.

(** [check_header_usage(header_path, all_source_content)] *)
Definition check_header_usage (header_path all_source_content : str) : bool :=
  if startswith header_path (lit "include/") then
    let include_ref := slice_from 8 header_path in
    contains ([dquote] ++ include_ref ++ [dquote]) all_source_content
    || contains (lit "<" ++ include_ref ++ lit ">") all_source_content
  else true.

(** ** Decoding file contents

    [open(path, 'r')] decodes the bytes of the file with the default
    encoding, UTF-8, and translates line endings (universal newlines).  The
    error handler is ['strict'] unless [errors='ignore'] is passed. *)

Inductive errors_mode : Type := Strict | Ignore.

(** What the decoder does at an ill-formed sequence: ['strict'] raises,
    ['ignore'] drops the offending bytes and resumes after them. *)
Definition on_error (mode : errors_mode) (resume : option str) : option str :=
  match mode with
  | Strict => None
  | Ignore => resume
  end.

Definition emit (cp : codepoint) (k : option str) : option str :=
  option_map (cons cp) k.

Definition is_continuation (b : N) : bool := (128 <=? b)%N && (b <=? 191)%N.

Definition cont_bits (b : N) : N := N.land b 63.

(** The UTF-8 decoder: shortest forms only, no surrogates, at most U+10FFFF;
    an error spans the longest prefix of the sequence that could still have
    been completed. *)
Fixpoint utf8_decode (mode : errors_mode) (bs : list byte) : option str :=
  match bs with
  | [] => Some []
  | b1 :: r1 =>
    let c1 := Byte.to_N b1 in
    if (c1 <? 128)%N then emit c1 (utf8_decode mode r1)
    else if (c1 <? 194)%N then on_error mode (utf8_decode mode r1)
    else if (c1 <? 224)%N then
      match r1 with
      | [] => on_error mode (Some [])
      | b2 :: r2 =>
        let c2 := Byte.to_N b2 in
        if is_continuation c2
        then emit (N.lor (N.shiftl (N.land c1 31) 6) (cont_bits c2))
                  (utf8_decode mode r2)
        else on_error mode (utf8_decode mode r1)
      end
    else if (c1 <? 240)%N then
      match r1 with
      | [] => on_error mode (Some [])
      | b2 :: r2 =>
        let c2 := Byte.to_N b2 in
        if negb (is_continuation c2)
           || (if (c2 <? 160)%N then (c1 =? 224)%N else (c1 =? 237)%N)
        then on_error mode (utf8_decode mode r1)
        else
          match r2 with
          | [] => on_error mode (Some [])
          | b3 :: r3 =>
            let c3 := Byte.to_N b3 in
            if is_continuation c3
            then emit (N.lor (N.shiftl (N.land c1 15) 12)
                         (N.lor (N.shiftl (cont_bits c2) 6) (cont_bits c3)))
                      (utf8_decode mode r3)
            else on_error mode (utf8_decode mode r2)
          end
      end
    else if (c1 <? 245)%N then
      match r1 with
      | [] => on_error mode (Some [])
      | b2 :: r2 =>
        let c2 := Byte.to_N b2 in
        if negb (is_continuation c2)
           || (if (c2 <? 144)%N then (c1 =? 240)%N else (c1 =? 244)%N)
        then on_error mode (utf8_decode mode r1)
        else
          match r2 with
          | [] => on_error mode (Some [])
          | b3 :: r3 =>
            let c3 := Byte.to_N b3 in
            if negb (is_continuation c3)
            then on_error mode (utf8_decode mode r2)
            else
              match r3 with
              | [] => on_error mode (Some [])
              | b4 :: r4 =>
                let c4 := Byte.to_N b4 in
                if is_continuation c4
                then emit (N.lor (N.shiftl (N.land c1 7) 18)
                             (N.lor (N.shiftl (cont_bits c2) 12)
                                (N.lor (N.shiftl (cont_bits c3) 6)
                                   (cont_bits c4))))
                          (utf8_decode mode r4)
                else on_error mode (utf8_decode mode r3)
              end
          end
      end
    else on_error mode (utf8_decode mode r1)
  end.

(** Universal newlines on input: ["\r\n"] and a lone ["\r"] are read as
    ["\n"]. *)
Fixpoint universal_newlines (s : str) : str :=
  match s with
  | [] => []
  | c :: s' =>
    if (c =? 13)%N then
      newline ::
        match s' with
        | d :: s'' =>
            if (d =? 10)%N then universal_newlines s'' else universal_newlines s'
        | [] => []
        end
    else c :: universal_newlines s'
  end.

(** ** The project tree

    The working directory is a tree; the entries of a directory are kept in
    the order a directory scan yields them.  Besides readable regular files
    and readable directories, an entry can be a name that a scan lists but
    that cannot be read: a dangling symbolic link, a file or a directory
    without permissions, or a symbolic link to a directory, which [open]
    follows and [os.walk] does not descend.  A symbolic link to a file reads
    as that file.  Paths are relative to the working directory and [".."] is
    not interpreted, as the program never builds such a path. *)

Unset Elimination Schemes.
Inductive node : Type :=
| File (data : list byte)
| Dir (entries : list (str * node))
| Dangling
| Unreadable
| DirLink (entries : list (str * node))
| ClosedDir.
Set Elimination Schemes.

Inductive exn : Type :=
| FileNotFoundError
| NotADirectoryError
| IsADirectoryError
| UnicodeDecodeError
| PermissionError.

Inductive result (A : Type) : Type :=
| Ok (a : A)
| Raise (e : exn).
Arguments Ok {A} a.
Arguments Raise {A} e.

(** [entry.is_dir()], which follows symbolic links: the entries [os.walk]
    puts in [dirs]; all others go to [files]. *)
Definition is_dir (n : node) : bool :=
  match n with
  | Dir _ | DirLink _ | ClosedDir => true
  | File _ | Dangling | Unreadable => false
  end.

(** The subdirectories [os.walk] descends: not a symbolic link, and its scan
    succeeds. *)
Definition walk_into (n : node) : bool :=
  match n with Dir _ => true | _ => false end.

(** The entries of a directory that can be scanned, reached directly or
    through a link. *)
Definition entries_of (n : node) : option (list (str * node)) :=
  match n with
  | Dir es | DirLink es => Some es
  | _ => None
  end.

Fixpoint lookup (name : str) (entries : list (str * node)) : option node :=
  match entries with
  | [] => None
  | (k, n) :: entries' => if str_eqb k name then Some n else lookup name entries'
  end.

(** [p.split("/")] *)
Fixpoint split_sep (p : str) : list str :=
  match p with
  | [] => [[]]
  | c :: p' =>
    if (c =? sep)%N then [] :: split_sep p'
    else match split_sep p' with
         | w :: ws => (c :: w) :: ws
         | [] => [[c]]
         end
  end.

(** ["/".join(comps)] *)
Fixpoint join_sep (comps : list str) : str :=
  match comps with
  | [] => []
  | [c] => c
  | c :: comps' => c ++ [sep] ++ join_sep comps'
  end.

Definition skipped_component (c : str) : bool :=
  str_eqb c [] || str_eqb c (lit ".").

(** Path resolution from a directory, one component at a time. *)
Fixpoint resolve (cur : node) (comps : list str) : result node :=
  match comps with
  | [] => Ok cur
  | c :: comps' =>
    match cur with
    | Dir es | DirLink es =>
      if skipped_component c then resolve cur comps'
      else match lookup c es with
           | None => Raise FileNotFoundError
           | Some n => resolve n comps'
           end
    | File _ | Unreadable => Raise NotADirectoryError
    | Dangling => Raise FileNotFoundError
    | ClosedDir => Raise PermissionError
    end
  end.

(** [open(path, 'rb').read()] *)
Definition open_bytes (fs : node) (path : str) : result (list byte) :=
  match path with
  | [] => Raise FileNotFoundError
  | _ =>
    match resolve fs (split_sep path) with
    | Ok (File data) => Ok data
    | Ok (Dir _) | Ok (DirLink _) => Raise IsADirectoryError
    | Ok Dangling => Raise FileNotFoundError
    | Ok Unreadable | Ok ClosedDir => Raise PermissionError
    | Raise e => Raise e
    end
  end.

(** [open(path, 'r', errors=mode).read()] *)
Definition read_text (mode : errors_mode) (fs : node) (path : str) : result str :=
  match open_bytes fs path with
  | Ok data =>
    match utf8_decode mode data with
    | Some s => Ok (universal_newlines s)
    | None => Raise UnicodeDecodeError
    end
  | Raise e => Raise e
  end.

(** [os.path.join(a, b)] *)
Definition path_join (a b : str) : str :=
  if startswith b [sep] then b
  else if str_eqb a [] || endswith a [sep] then a ++ b
  else a ++ [sep] ++ b.

(** One step of the component loop of [os.path.normpath] on a relative
    path; [new_comps] is kept last component first. *)
Definition normpath_step (new_comps : list str) (comp : str) : list str :=
  if skipped_component comp then new_comps
  else if str_eqb comp (lit "..") then
    match new_comps with
    | [] => [comp]
    | last :: before =>
        if str_eqb last (lit "..") then comp :: new_comps else before
    end
  else comp :: new_comps.

Definition normpath (path : str) : str :=
  match join_sep (rev (fold_left normpath_step (split_sep path) [])) with
  | [] => lit "."
  | p => p
  end.

(** [os.path.relpath(path, start=".")] for a relative path that stays inside
    the working directory: its normal form. *)
Definition relpath (path : str) : str := normpath path.

(** One triple [(root, dirs, files)] yielded by [os.walk]. *)
Definition walk_entry : Type := str * list str * list str.

Definition dir_names (es : list (str * node)) : list str :=
  map fst (filter (fun e => is_dir (snd e)) es).

Definition file_names (es : list (str * node)) : list str :=
  map fst (filter (fun e => negb (is_dir (snd e))) es).

(** [os.walk] below a directory: the directory itself first, then each
    subdirectory in turn (top-down). *)
Fixpoint walk_node (top : str) (n : node) : list walk_entry :=
  match n with
  | Dir es | DirLink es =>
    (top, dir_names es, file_names es) ::
    flat_map
      (fun e => if walk_into (snd e)
                then walk_node (path_join top (fst e)) (snd e)
                else [])
      es
  | _ => []
  end.

(** [os.walk(top)]: a missing [top], or one that is not a directory, yields
    nothing (scan errors are ignored). *)
Definition os_walk (fs : node) (top : str) : list walk_entry :=
  match resolve fs (split_sep top) with
  | Ok n => walk_node top n
  | Raise _ => []
  end.

(** ** The enumerator and the content loader *)

(** [get_files(directory, extensions)] *)
Definition get_files (fs : node) (directory : str) (extensions : list str)
  : list str :=
  fold_left
    (fun file_list '(root, _, files) =>
       fold_left
         (fun file_list file =>
            if endswith_any file extensions
            then file_list ++ [relpath (path_join root file)]
            else file_list)
         files file_list)
    (os_walk fs directory) [].

(** [read_file(path)] *)
Definition read_file (fs : node) (path : str) : result str :=
  match read_text Strict fs path with
  | Raise FileNotFoundError => Ok []
  | r => r
  end.

(** ** The report driver

    The driver prints as it goes and stops at the first exception that
    nothing catches: a computation takes the standard output so far and
    gives a value or the exception, with the standard output at that point. *)

Definition IO (A : Type) : Type := str -> result A * str.

Definition ret {A} (a : A) : IO A := fun out => (Ok a, out).

Definition bind {A B} (m : IO A) (k : A -> IO B) : IO B :=
  fun out =>
    match m out with
    | (Ok a, out') => k a out'
    | (Raise e, out') => (Raise e, out')
    end.

Definition lift {A} (r : result A) : IO A := fun out => (r, out).

(** [print(s)] *)
Definition print (s : str) : IO unit :=
  fun out => (Ok tt, out ++ s ++ [newline]).

Declare Scope io_scope.
Delimit Scope io_scope with io.
Notation "x <- m ;; k" := (bind m (fun x => k))
  (at level 61, m at next level, right associativity) : io_scope.
Notation "m ;; k" := (bind m (fun _ => k))
  (at level 61, right associativity) : io_scope.
Local Open Scope io_scope.

(** A [for] loop whose body updates one loop-carried variable. *)
Fixpoint for_each {A S : Type} (items : list A) (acc : S)
  (body : S -> A -> IO S) : IO S :=
  match items with
  | [] => ret acc
  | x :: items' => acc' <- body acc x ;; for_each items' acc' body
  end.

(** The reporting loops of [main]:
    [for f in files: if not used(f): print(f); unused.append(f)]. *)
Definition report_unused (used : str -> bool) (files : list str)
  : IO (list str) :=
  for_each files []
    (fun unused f =>
       if negb (used f) then print f ;; ret (unused ++ [f]) else ret unused).

Definition source_suffixes : list str :=
  [lit ".cpp"; lit ".c"; lit ".h"; lit ".hpp"].

(** The directories the aggregate scan passes over:
    ["build" in root or "node_modules" in root]. *)
Definition skip_root (root : str) : bool :=
  contains (lit "build") root || contains (lit "node_modules") root.

(** Lines 78-84: the text of every source and header file below the working
    directory, each followed by a newline. *)
Definition load_all_content (fs : node) : IO str :=
  for_each (os_walk fs (lit ".")) []
    (fun all_content '(root, _, files) =>
       if skip_root root then ret all_content
       else
         for_each files all_content
           (fun all_content file =>
              if endswith_any file source_suffixes then
                text <- lift (read_text Ignore fs (path_join root file)) ;;
                ret (all_content ++ text ++ [newline])
              else ret all_content)).

(** Lines 97-102: the text of every markup file below [ui]. *)
Definition load_html_content (fs : node) : IO str :=
  for_each (os_walk fs (lit "ui")) []
    (fun html_content '(root, _, files) =>
       for_each files html_content
         (fun html_content file =>
            if endswith file (lit ".html") then
              text <- lift (read_text Ignore fs (path_join root file)) ;;
              ret (html_content ++ text ++ [newline])
            else ret html_content)).

(** The four result lists, local to [main]. *)
Record results : Type := {
  unused_src : list str;
  unused_tests : list str;
  unused_headers : list str;
  unused_assets : list str
}.

(** [main()] *)
Definition main (fs : node) : IO results :=
  print (lit "--- Unused C++ Source Files ---") ;;
  let src_files := get_files fs (lit "src") [lit ".cpp"; lit ".c"] in
  let test_files := get_files fs (lit "tests") [lit ".cpp"; lit ".c"] in
  src_cmake <- lift (read_file fs (lit "src/CMakeLists.txt")) ;;
  tests_cmake <- lift (read_file fs (lit "tests/CMakeLists.txt")) ;;
  unused_src <-
    report_unused (fun f => check_cmake_usage f src_cmake) src_files ;;
  print (newline :: lit "--- Unused Test Files ---") ;;
  unused_tests <-
    report_unused (fun f => check_cmake_usage f tests_cmake) test_files ;;
  print (newline :: lit "--- Unused Headers ---") ;;
  let header_files := get_files fs (lit "include") [lit ".h"; lit ".hpp"] in
  all_content <- load_all_content fs ;;
  unused_headers <-
    report_unused (fun h => check_header_usage h all_content) header_files ;;
  print (newline :: lit "--- Unused Web Assets ---") ;;
  let ui_assets := get_files fs (lit "ui/static") [lit ".js"; lit ".css"] in
  html_content <- load_html_content fs ;;
  unused_assets <-
    report_unused (fun asset => contains (basename asset) html_content)
      ui_assets ;;
  ret {| unused_src := unused_src; unused_tests := unused_tests;
         unused_headers := unused_headers; unused_assets := unused_assets |}.

(** A run of the program: standard output starts empty. *)
Definition run (fs : node) : result results * str := main fs [].

(** ** Shapes of trees and of outputs used in the statements *)

(** [s] begins with [pre]. *)
Definition HasPrefix (pre s : str) : Prop := exists rest, s = pre ++ rest.

(** A name a directory entry can carry: not empty, without a separator, and
    neither ["."] nor [".."]. *)
Definition entry_name_ok (name : str) : bool :=
  negb (str_eqb name []) && negb (existsb (N.eqb sep) name)
  && negb (str_eqb name (lit ".")) && negb (str_eqb name (lit "..")).

(** No two entries of a directory share a name. *)
Fixpoint names_distinct (es : list (str * node)) : bool :=
  match es with
  | [] => true
  | (k, _) :: es' =>
      match lookup k es' with
      | Some _ => false
      | None => names_distinct es'
      end
  end.

(** A tree a file system can hold. *)
Fixpoint well_formed (n : node) : bool :=
  match n with
  | Dir es | DirLink es =>
    names_distinct es &&
    forallb (fun e => entry_name_ok (fst e) && well_formed (snd e)) es
  | _ => true
  end.

(** The names of all entries that are not directories, at any depth below
    a node, through links as well. *)
Fixpoint files_below (n : node) : list str :=
  match n with
  | Dir es | DirLink es =>
    flat_map
      (fun e => if is_dir (snd e) then files_below (snd e) else [fst e])
      es
  | _ => []
  end.

(** The root [top] holds no file with one of the suffixes: it is missing, is
    not a directory, or nothing below it matches. *)
Definition no_matching_file (fs : node) (top : str) (suffixes : list str)
  : Prop :=
  forall n, resolve fs (split_sep top) = Ok n ->
    Forall (fun name => endswith_any name suffixes = false) (files_below n).

(** A build file the loader can take: absent, or a regular file of
    well-formed UTF-8. *)
Definition build_file_loadable (fs : node) (path : str) : Prop :=
  open_bytes fs path = Raise FileNotFoundError \/
  exists data text,
    open_bytes fs path = Ok data /\ utf8_decode Strict data = Some text.

Definition header_src : str := lit "--- Unused C++ Source Files ---".
Definition header_tests : str := newline :: lit "--- Unused Test Files ---".
Definition header_headers : str := newline :: lit "--- Unused Headers ---".
Definition header_assets : str := newline :: lit "--- Unused Web Assets ---".

(** The four checks of [main], as tests on a path. *)
Definition src_unused (src_cmake : str) (f : str) : bool :=
  negb (check_cmake_usage f src_cmake).
Definition header_unused (all_content : str) (h : str) : bool :=
  negb (check_header_usage h all_content).
Definition asset_unused (html_content : str) (asset : str) : bool :=
  negb (contains (basename asset) html_content).

(** The four section headers as [main] prints them, and nothing else. *)
Definition headers_only : str :=
  (header_src ++ [newline]) ++ (header_tests ++ [newline])
  ++ (header_headers ++ [newline]) ++ (header_assets ++ [newline]).

(** The lines a reporting loop prints for a list of paths. *)
Definition printed_lines (paths : list str) : str :=
  flat_map (fun p => p ++ [newline]) paths.

(** Reading the given files in turn, each text followed by a newline. *)
Definition read_concat (fs : node) (paths : list str) : IO str :=
  for_each paths []
    (fun content p =>
       text <- lift (read_text Ignore fs p) ;;
       ret (content ++ text ++ [newline])).

(** The files the aggregate scan of [main] opens, in order. *)
Definition haystack_paths (fs : node) : list str :=
  flat_map
    (fun '(root, _, files) =>
       if skip_root root then []
       else map (path_join root)
              (filter (fun file => endswith_any file source_suffixes) files))
    (os_walk fs (lit ".")).

(** The markup files [main] opens, in order. *)
Definition markup_paths (fs : node) : list str :=
  flat_map
    (fun '(root, _, files) =>
       map (path_join root)
         (filter (fun file => endswith file (lit ".html")) files))
    (os_walk fs (lit "ui")).

(** The file list of [get_files], as a comprehension over the walk. *)
Definition matching_paths (fs : node) (directory : str) (extensions : list str)
  : list str :=
  flat_map
    (fun '(root, _, files) =>
       map (fun file => relpath (path_join root file))
         (filter (fun file => endswith_any file extensions) files))
    (os_walk fs directory).

(** Sample trees. *)
Definition text_file (s : string) : node := File (list_byte_of_string s).

(** A build file with one byte that is not UTF-8. *)
Definition tree_bad_build_file : node :=
  Dir [(lit "src", Dir [(lit "CMakeLists.txt", File [x23; xe9; x0a])])].

(** A regular file where the sources root should be. *)
Definition tree_src_is_file : node := Dir [(lit "src", File [])].

(** A script that is mentioned by another script only. *)
Definition tree_script_reference : node :=
  Dir [(lit "ui",
        Dir [(lit "index.html", text_file "<script src=main.js></script>");
             (lit "static",
              Dir [(lit "main.js", text_file "import './app.js';");
                   (lit "app.js", text_file "export {};")])])].

(** Sources in directories whose names resemble a build directory. *)
Definition tree_build_like : node :=
  Dir [(lit "prebuilt", Dir [(lit "z.cpp", text_file "int z;")]);
       (lit "rebuild", Dir [(lit "r.cpp", text_file "int r;")]);
       (lit "lib", Dir [(lit "l.c", text_file "int l;")])].

(** A tree with a build file and documentation, and no sources under the
    roots. *)
Definition tree_no_sources : node :=
  Dir [(lit "README.md", text_file "notes");
       (lit "src", Dir [(lit "CMakeLists.txt", text_file "project(dpi)")]);
       (lit "docs", Dir [(lit "sample.cpp", text_file "int main() {}")])].

(** A small project: one listed source, one unlisted, a header included with
    angle brackets and one never included, a page and two scripts. *)
Definition tree_project : node :=
  Dir [(lit "src",
        Dir [(lit "CMakeLists.txt", text_file "add_executable(dpi main.cpp)");
             (lit "main.cpp", text_file "#include <flow/flow.h>");
             (lit "old.c", text_file "")]);
       (lit "include",
        Dir [(lit "flow",
              Dir [(lit "flow.h", text_file "");
                   (lit "unused.hpp", text_file "")])]);
       (lit "ui",
        Dir [(lit "index.html", text_file "<script src=app.js></script>");
             (lit "static",
              Dir [(lit "app.js", text_file "");
                   (lit "extra.css", text_file "")])])].

(** Path components that are all entry names. *)
Definition plain_components (comps : list str) : Prop :=
  Forall (fun c => entry_name_ok c = true) comps.

(** The directory reached from [top] through the entries [comps], as
    [os.walk] builds its path. *)
Definition descend (top : str) (comps : list str) : str :=
  fold_left path_join comps top.

(** The aggregate of a list of texts: each followed by a newline. *)
Definition aggregate (texts : list str) : str :=
  flat_map (fun text => text ++ [newline]) texts.

(** The part of the aggregate scan that a walk contributes. *)
Definition scanned_paths (walk : list walk_entry) : list str :=
  flat_map
    (fun '(root, _, files) =>
       if skip_root root then []
       else map (path_join root)
              (filter (fun file => endswith_any file source_suffixes) files))
    walk.

(** The same project as a scan in another order would meet it. *)
Definition tree_project_reordered : node :=
  Dir [(lit "ui",
        Dir [(lit "static",
              Dir [(lit "extra.css", text_file "");
                   (lit "app.js", text_file "")]);
             (lit "index.html", text_file "<script src=app.js></script>")]);
       (lit "include",
        Dir [(lit "flow",
              Dir [(lit "unused.hpp", text_file "");
                   (lit "flow.h", text_file "")])]);
       (lit "src",
        Dir [(lit "old.c", text_file "");
             (lit "main.cpp", text_file "#include <flow/flow.h>");
             (lit "CMakeLists.txt", text_file "add_executable(dpi main.cpp)")])].

(** Sources without a build file, and assets without a page. *)
Definition tree_unlisted : node :=
  Dir [(lit "src",
        Dir [(lit "a.cpp", text_file "int a;");
             (lit "util", Dir [(lit "b.c", text_file "int b;")])]);
       (lit "ui",
        Dir [(lit "static", Dir [(lit "app.js", text_file "")])])].

(** Every file the two scans of [main] select can be opened. *)
Definition scanned_files_open (fs : node) : Prop :=
  forall p, In p (haystack_paths fs) \/ In p (markup_paths fs) ->
            exists data, open_bytes fs p = Ok data.

(** The entries of the directory that [os.walk], started at [n], reaches
    through the entry names [comps]: every step is a subdirectory the walk
    descends. *)
Fixpoint enter (n : node) (comps : list str) : option (list (str * node)) :=
  match comps with
  | [] => entries_of n
  | c :: comps' =>
    match entries_of n with
    | Some es =>
      match lookup c es with
      | Some sub => if walk_into sub then enter sub comps' else None
      | None => None
      end
    | None => None
    end
  end.

(** A tree with no roots and no build files, and a header that is a dangling
    link. *)
Definition tree_dangling_header : node :=
  Dir [(lit "docs", Dir [(lit "gone.h", Dangling)])].

(** A project with entries that cannot be read or are not descended. *)
Definition tree_links : node :=
  Dir [(lit "src",
        Dir [(lit "CMakeLists.txt", text_file "add_library(x real/r.cpp)");
             (lit "real", Dir [(lit "r.cpp", text_file "int r;")]);
             (lit "linkdir", DirLink [(lit "r.cpp", text_file "int r;")]);
             (lit "secret", ClosedDir);
             (lit "lost.cpp", Dangling)]);
       (lit "ui",
        Dir [(lit "static",
              Dir [(lit "app.js", Dangling);
                   (lit "locked.css", Unreadable)])])].

(** A tree of readable regular files and readable directories only. *)
Fixpoint all_readable (n : node) : bool :=
  match n with
  | File _ => true
  | Dir es => forallb (fun e => all_readable (snd e)) es
  | _ => false
  end.

(** An asset that is a dangling link, and no page. *)
Definition tree_dangling_asset : node :=
  Dir [(lit "ui", Dir [(lit "static", Dir [(lit "app.js", Dangling)])])].

(** * Properties *)

(** ** Strings *)

Lemma str_eqb_eq a b : str_eqb a b = true <-> a = b.
Proof.
  revert b; induction a as [|x a IH]; intros [|y b]; simpl;
    try (split; [discriminate | congruence]); try tauto.
  rewrite andb_true_iff, N.eqb_eq, IH. split.
  - intros [-> ->]; reflexivity.
  - intros E; injection E; auto.
Qed.

Lemma startswith_spec s p :
  startswith s p = true <-> exists rest, s = p ++ rest.
Proof.
  revert s; induction p as [|c p IH]; intros s; simpl.
  - split; [exists s; reflexivity | reflexivity].
  - destruct s as [|d s].
    + split; [discriminate | intros [r E]; discriminate].
    + rewrite andb_true_iff, N.eqb_eq, IH. split.
      * intros [-> [r ->]]. exists r; reflexivity.
      * intros [r E]. injection E as -> ->. split; eauto.
Qed.

Lemma contains_spec needle hay :
  contains needle hay = true <-> Substring needle hay.
Proof.
  unfold Substring. induction hay as [|c hay IH]; simpl.
  - rewrite orb_false_r, startswith_spec. split.
    + intros [r E]. exists [], r. exact E.
    + intros [[|x pre] [post E]]; [eauto | discriminate].
  - rewrite orb_true_iff, startswith_spec, IH. split.
    + intros [[r E] | [pre [post E]]].
      * exists [], r. exact E.
      * exists (c :: pre), post. simpl. now rewrite E.
    + intros [[|x pre] [post E]].
      * left. eauto.
      * right. injection E as -> ->. eauto.
Qed.

Lemma contains_false needle hay :
  contains needle hay = false <-> ~ Substring needle hay.
Proof.
  rewrite <- contains_spec. destruct (contains needle hay); split; congruence.
Qed.

Lemma contains_empty_hay needle :
  needle <> [] -> contains needle [] = false.
Proof. destruct needle; [congruence | reflexivity]. Qed.


Lemma startswith_false s p : startswith s p = false <-> ~ HasPrefix p s.
Proof.
  unfold HasPrefix. rewrite <- startswith_spec.
  destruct (startswith s p); split; congruence.
Qed.

Lemma slice_from_app (p rest : str) : slice_from (length p) (p ++ rest) = rest.
Proof. unfold slice_from. induction p; simpl; auto. Qed.

(** ** The build-file checker *)

Lemma check_cmake_usage_src rest content :
  check_cmake_usage (lit "src/" ++ rest) content = contains rest content.
Proof. reflexivity. Qed.

Lemma check_cmake_usage_tests rest content :
  check_cmake_usage (lit "tests/" ++ rest) content = contains rest content.
Proof. reflexivity. Qed.

(** C1: for a path [src/rest] (respectively [tests/rest]),
    [check_cmake_usage] answers true exactly when [rest], the path without
    the prefix and its separator, occurs literally in the build-file text. *)
Theorem check_cmake_usage_iff_substring (rest content : str) :
  (check_cmake_usage (lit "src/" ++ rest) content = true
     <-> Substring rest content) /\
  (check_cmake_usage (lit "tests/" ++ rest) content = true
     <-> Substring rest content).
Proof.
  rewrite check_cmake_usage_src, check_cmake_usage_tests.
  split; apply contains_spec.
Qed.

(** ** The header checker *)

Lemma check_header_usage_include rest content :
  check_header_usage (lit "include/" ++ rest) content =
  contains ([dquote] ++ rest ++ [dquote]) content
  || contains (lit "<" ++ rest ++ lit ">") content.
Proof. reflexivity. Qed.

(** C2: for a header [include/rest], [check_header_usage] answers true
    exactly when the aggregate text contains [rest] between double quotes or
    [rest] between angle brackets; so for [include/a/b.h], exactly when it
    contains the quoted [a/b.h] or [<a/b.h>]. *)
Theorem check_header_usage_iff_include_form (rest content : str) :
  (check_header_usage (lit "include/" ++ rest) content = true
     <-> Substring ([dquote] ++ rest ++ [dquote]) content
         \/ Substring (lit "<" ++ rest ++ lit ">") content) /\
  (check_header_usage (lit "include/a/b.h") content = true
     <-> Substring (dquote :: lit "a/b.h" ++ [dquote]) content
         \/ Substring (lit "<a/b.h>") content).
Proof.
  split.
  - rewrite check_header_usage_include, orb_true_iff, !contains_spec. tauto.
  - change (lit "include/a/b.h") with (lit "include/" ++ lit "a/b.h").
    rewrite check_header_usage_include, orb_true_iff, !contains_spec. tauto.
Qed.

(** ** Unknown prefixes *)

(** C4: a path under neither [src/] nor [tests/] is never reported as used by
    the build-file checker, and a header outside [include/] is always taken
    as used, whatever the text searched; both checkers are total functions,
    so no error arises. *)
Theorem unknown_prefix_defaults :
  (forall path content : str,
      ~ HasPrefix (lit "src/") path -> ~ HasPrefix (lit "tests/") path ->
      check_cmake_usage path content = false) /\
  (forall header content : str,
      ~ HasPrefix (lit "include/") header ->
      check_header_usage header content = true).
Proof.
  split.
  - intros path content Hs Ht. unfold check_cmake_usage.
    apply startswith_false in Hs, Ht. now rewrite Hs, Ht.
  - intros header content Hi. unfold check_header_usage.
    apply startswith_false in Hi. now rewrite Hi.
Qed.

Lemma unknown_prefix_defaults_witness :
  check_cmake_usage (lit "lib/x.cpp") (lit "add_library(x lib/x.cpp x.cpp)")
    = false /\
  check_header_usage (lit "src/x.h") [] = true.
Proof.
  split.
  - apply (proj1 unknown_prefix_defaults);
      apply startswith_false; reflexivity.
  - apply (proj2 unknown_prefix_defaults);
      apply startswith_false; reflexivity.
Defined.

(** ** The content loader *)

Lemma read_file_missing fs path :
  open_bytes fs path = Raise FileNotFoundError -> read_file fs path = Ok [].
Proof. intros H. unfold read_file, read_text. now rewrite H. Qed.

Lemma read_file_decoded fs path data text :
  open_bytes fs path = Ok data -> utf8_decode Strict data = Some text ->
  read_file fs path = Ok (universal_newlines text).
Proof. intros H D. unfold read_file, read_text. now rewrite H, D. Qed.

Lemma read_file_undecodable fs path data :
  open_bytes fs path = Ok data -> utf8_decode Strict data = None ->
  read_file fs path = Raise UnicodeDecodeError.
Proof. intros H D. unfold read_file, read_text. now rewrite H, D. Qed.

(** C5, at a build file holding the Latin-1 bytes [#], [e-acute], newline:
    [read_file] raises the decoding error, where the scans of [main], which
    pass [errors='ignore'], read the same file as ["#\n"]. *)
Theorem read_file_raises_on_undecodable :
  read_file tree_bad_build_file (lit "src/CMakeLists.txt")
    = Raise UnicodeDecodeError /\
  read_text Ignore tree_bad_build_file (lit "src/CMakeLists.txt")
    = Ok [35%N; newline] /\
  fst (run tree_bad_build_file) = Raise UnicodeDecodeError.
Proof. repeat split; vm_compute; reflexivity. Qed.

(** C6: with an empty build-file text, which is what a missing build file
    is read as, every path [src/rest] or [tests/rest] with a non-empty [rest]
    is classified unused. *)
Theorem empty_build_file_all_unused :
  (forall rest : str, rest <> [] ->
      check_cmake_usage (lit "src/" ++ rest) [] = false /\
      check_cmake_usage (lit "tests/" ++ rest) [] = false) /\
  (forall (fs : node) (build_file rest : str),
      open_bytes fs build_file = Raise FileNotFoundError -> rest <> [] ->
      exists content,
        read_file fs build_file = Ok content /\
        check_cmake_usage (lit "src/" ++ rest) content = false /\
        check_cmake_usage (lit "tests/" ++ rest) content = false).
Proof.
  assert (E : forall rest : str, rest <> [] ->
      check_cmake_usage (lit "src/" ++ rest) [] = false /\
      check_cmake_usage (lit "tests/" ++ rest) [] = false).
  { intros rest Hne.
    rewrite check_cmake_usage_src, check_cmake_usage_tests.
    split; apply contains_empty_hay; exact Hne. }
  split; [exact E|].
  intros fs build_file rest Hmiss Hne. exists [].
  split; [apply read_file_missing; exact Hmiss | apply E; exact Hne].
Qed.

Lemma empty_build_file_all_unused_witness :
  check_cmake_usage (lit "src/" ++ lit "dpi/flow.cpp") [] = false /\
  exists content,
    read_file (Dir []) (lit "tests/CMakeLists.txt") = Ok content /\
    check_cmake_usage (lit "src/" ++ lit "t.cpp") content = false /\
    check_cmake_usage (lit "tests/" ++ lit "t.cpp") content = false.
Proof.
  split.
  - apply (proj1 empty_build_file_all_unused); discriminate.
  - apply (proj2 empty_build_file_all_unused); [reflexivity | discriminate].
Defined.

(** ** Loops of the driver *)

Lemma for_each_ext {A S : Type} (items : list A) (body1 body2 : S -> A -> IO S) :
  (forall acc x out, In x items -> body1 acc x out = body2 acc x out) ->
  forall acc out, for_each items acc body1 out = for_each items acc body2 out.
Proof.
  induction items as [|x items IH]; intros Hb acc out; simpl; [reflexivity|].
  unfold bind. rewrite Hb by (left; reflexivity).
  destruct (body2 acc x out) as [[acc'|e] out']; [|reflexivity].
  apply IH. intros; apply Hb; right; assumption.
Qed.

Lemma for_each_app {A S : Type} (l1 l2 : list A) (body : S -> A -> IO S) acc out :
  for_each (l1 ++ l2) acc body out =
  bind (for_each l1 acc body) (fun acc' => for_each l2 acc' body) out.
Proof.
  revert acc out; induction l1 as [|x l1 IH]; intros acc out; simpl.
  - reflexivity.
  - unfold bind in *.
    destruct (body acc x out) as [[acc'|e] out']; [apply IH | reflexivity].
Qed.

(** A loop that reads only the items passing a test is the loop over the
    passing items. *)
Lemma for_each_filter_map {A B S : Type} (keep : A -> bool) (f : A -> B)
  (body : S -> B -> IO S) (items : list A) acc out :
  for_each items acc (fun acc x => if keep x then body acc (f x) else ret acc) out
  = for_each (map f (filter keep items)) acc body out.
Proof.
  revert acc out; induction items as [|x items IH]; intros acc out; simpl.
  - reflexivity.
  - destruct (keep x); simpl; unfold bind.
    + destruct (body acc (f x) out) as [[acc'|e] out']; [apply IH | reflexivity].
    + apply IH.
Qed.

Lemma report_unused_from used files acc out :
  for_each files acc
    (fun unused f =>
       if negb (used f) then print f ;; ret (unused ++ [f]) else ret unused) out
  = (Ok (acc ++ filter (fun f => negb (used f)) files),
     out ++ printed_lines (filter (fun f => negb (used f)) files)).
Proof.
  revert acc out; induction files as [|f files IH]; intros acc out; simpl.
  - now rewrite !app_nil_r.
  - unfold bind at 1. destruct (negb (used f)); simpl.
    + unfold bind, print, ret. rewrite IH. simpl.
      now rewrite <- !app_assoc.
    + unfold ret. apply IH.
Qed.

(** A reporting loop always completes: it returns the paths its checker
    rejects, in order, and prints one line for each. *)
Lemma report_unused_run used files out :
  report_unused used files out
  = (Ok (filter (fun f => negb (used f)) files),
     out ++ printed_lines (filter (fun f => negb (used f)) files)).
Proof. unfold report_unused. now rewrite report_unused_from. Qed.

Lemma fold_left_collect {A B : Type} (keep : A -> bool) (f : A -> B)
  (items : list A) (acc : list B) :
  fold_left (fun acc x => if keep x then acc ++ [f x] else acc) items acc
  = acc ++ map f (filter keep items).
Proof.
  revert acc; induction items as [|x items IH]; intros acc; simpl.
  - now rewrite app_nil_r.
  - rewrite IH. destruct (keep x); simpl; [now rewrite <- app_assoc | reflexivity].
Qed.

(** [get_files] returns the matching files of each walked directory, in walk
    order. *)
Lemma get_files_matching fs directory extensions :
  get_files fs directory extensions = matching_paths fs directory extensions.
Proof.
  unfold get_files, matching_paths.
  generalize (os_walk fs directory) as walk.
  assert (G : forall (walk : list walk_entry) acc,
    fold_left
      (fun file_list '(root, _, files) =>
         fold_left
           (fun file_list file =>
              if endswith_any file extensions
              then file_list ++ [relpath (path_join root file)]
              else file_list)
           files file_list) walk acc
    = acc ++ flat_map
        (fun '(root, _, files) =>
           map (fun file => relpath (path_join root file))
             (filter (fun file => endswith_any file extensions) files)) walk).
  { induction walk as [|[[root dirs] files] walk IH]; intros acc; simpl.
    - now rewrite app_nil_r.
    - rewrite IH, fold_left_collect. now rewrite <- app_assoc. }
  intros walk. apply (G walk []).
Qed.

Lemma for_each_read_matching fs root keep files acc out :
  for_each files acc
    (fun content file =>
       if keep file : bool then
         text <- lift (read_text Ignore fs (path_join root file)) ;;
         ret (content ++ text ++ [newline])
       else ret content) out
  = for_each (map (path_join root) (filter keep files)) acc
      (fun content p =>
         text <- lift (read_text Ignore fs p) ;;
         ret (content ++ text ++ [newline])) out.
Proof.
  exact (for_each_filter_map keep (path_join root)
           (fun content p =>
              text <- lift (read_text Ignore fs p) ;;
              ret (content ++ text ++ [newline])) files acc out).
Qed.

Lemma bind_run {A B} (m : IO A) (k : A -> IO B) out :
  bind m k out =
  match m out with
  | (Ok a, out') => k a out'
  | (Raise e, out') => (Raise e, out')
  end.
Proof. reflexivity. Qed.

Lemma load_all_content_from fs (walk : list walk_entry) acc out :
  for_each walk acc
    (fun all_content '(root, _, files) =>
       if skip_root root then ret all_content
       else
         for_each files all_content
           (fun all_content file =>
              if endswith_any file source_suffixes then
                text <- lift (read_text Ignore fs (path_join root file)) ;;
                ret (all_content ++ text ++ [newline])
              else ret all_content)) out
  = for_each
      (flat_map
         (fun '(root, _, files) =>
            if skip_root root then []
            else map (path_join root)
                   (filter (fun file => endswith_any file source_suffixes) files))
         walk) acc
      (fun content p =>
         text <- lift (read_text Ignore fs p) ;;
         ret (content ++ text ++ [newline])) out.
Proof.
  revert acc out.
  induction walk as [|[[root dirs] files] walk IH]; intros acc out.
  - reflexivity.
  - cbn [for_each flat_map]. rewrite for_each_app, !bind_run.
    destruct (skip_root root).
    + cbn [for_each]. unfold ret at 1 2. apply IH.
    + rewrite for_each_read_matching.
      destruct (for_each _ acc _ out) as [[acc'|e] out']; [apply IH | reflexivity].
Qed.

Lemma load_all_content_read_concat fs out :
  load_all_content fs out = read_concat fs (haystack_paths fs) out.
Proof. apply load_all_content_from. Qed.

Lemma load_html_content_from fs (walk : list walk_entry) acc out :
  for_each walk acc
    (fun html_content '(root, _, files) =>
       for_each files html_content
         (fun html_content file =>
            if endswith file (lit ".html") then
              text <- lift (read_text Ignore fs (path_join root file)) ;;
              ret (html_content ++ text ++ [newline])
            else ret html_content)) out
  = for_each
      (flat_map
         (fun '(root, _, files) =>
            map (path_join root)
              (filter (fun file => endswith file (lit ".html")) files))
         walk) acc
      (fun content p =>
         text <- lift (read_text Ignore fs p) ;;
         ret (content ++ text ++ [newline])) out.
Proof.
  revert acc out.
  induction walk as [|[[root dirs] files] walk IH]; intros acc out.
  - reflexivity.
  - cbn [for_each flat_map]. rewrite for_each_app, !bind_run.
    rewrite for_each_read_matching.
    destruct (for_each _ acc _ out) as [[acc'|e] out']; [apply IH | reflexivity].
Qed.

Lemma load_html_content_read_concat fs out :
  load_html_content fs out = read_concat fs (markup_paths fs) out.
Proof. apply load_html_content_from. Qed.

(** Reading files prints nothing, and what is read does not depend on the
    output so far. *)
Lemma for_each_read_out fs paths acc out :
  for_each paths acc
    (fun content p =>
       text <- lift (read_text Ignore fs p) ;;
       ret (content ++ text ++ [newline])) out
  = (fst (for_each paths acc
            (fun content p =>
               text <- lift (read_text Ignore fs p) ;;
               ret (content ++ text ++ [newline])) []), out).
Proof.
  revert acc out; induction paths as [|p paths IH]; intros acc out.
  - reflexivity.
  - cbn [for_each]. rewrite !bind_run. unfold lift at 1 3.
    destruct (read_text Ignore fs p) as [text|e]; [|reflexivity].
    unfold ret at 1 3. rewrite IH. reflexivity.
Qed.

Lemma read_concat_out fs paths out :
  read_concat fs paths out = (fst (read_concat fs paths []), out).
Proof. apply for_each_read_out. Qed.

(** [main], step by step: where it can stop, and what it has printed by
    then. *)
Lemma main_run fs out :
  main fs out =
  let out1 := out ++ header_src ++ [newline] in
  match read_file fs (lit "src/CMakeLists.txt") with
  | Raise e => (Raise e, out1)
  | Ok src_cmake =>
    match read_file fs (lit "tests/CMakeLists.txt") with
    | Raise e => (Raise e, out1)
    | Ok tests_cmake =>
      let us := filter (src_unused src_cmake)
                  (get_files fs (lit "src") [lit ".cpp"; lit ".c"]) in
      let ut := filter (src_unused tests_cmake)
                  (get_files fs (lit "tests") [lit ".cpp"; lit ".c"]) in
      let out2 := (((out1 ++ printed_lines us) ++ header_tests ++ [newline])
                   ++ printed_lines ut) ++ header_headers ++ [newline] in
      match fst (load_all_content fs []) with
      | Raise e => (Raise e, out2)
      | Ok all_content =>
        let uh := filter (header_unused all_content)
                    (get_files fs (lit "include") [lit ".h"; lit ".hpp"]) in
        let out3 := (out2 ++ printed_lines uh) ++ header_assets ++ [newline] in
        match fst (load_html_content fs []) with
        | Raise e => (Raise e, out3)
        | Ok html_content =>
          let ua := filter (asset_unused html_content)
                      (get_files fs (lit "ui/static") [lit ".js"; lit ".css"]) in
          (Ok {| unused_src := us; unused_tests := ut;
                 unused_headers := uh; unused_assets := ua |},
           out3 ++ printed_lines ua)
        end
      end
    end
  end.
Proof.
  unfold main. cbv zeta. rewrite bind_run. unfold print at 1.
  rewrite bind_run. unfold lift at 1.
  destruct (read_file fs (lit "src/CMakeLists.txt")) as [src_cmake|e];
    [|reflexivity].
  rewrite bind_run. unfold lift at 1.
  destruct (read_file fs (lit "tests/CMakeLists.txt")) as [tests_cmake|e];
    [|reflexivity].
  rewrite bind_run, report_unused_run, bind_run. unfold print at 1.
  rewrite bind_run, report_unused_run, bind_run. unfold print at 1.
  rewrite bind_run, !load_all_content_read_concat, read_concat_out.
  destruct (fst (read_concat fs (haystack_paths fs) [])) as [all_content|e];
    [|reflexivity].
  rewrite bind_run, report_unused_run, bind_run. unfold print at 1.
  rewrite bind_run, !load_html_content_read_concat, read_concat_out.
  destruct (fst (read_concat fs (markup_paths fs) [])) as [html_content|e];
    [|reflexivity].
  rewrite bind_run, report_unused_run. reflexivity.
Qed.

(** ** The result lists *)

(** What a completed run leaves in its result lists and on standard
    output. *)
Lemma main_completed fs out0 res out :
  main fs out0 = (Ok res, out) ->
  exists src_cmake tests_cmake all_content html_content,
    read_file fs (lit "src/CMakeLists.txt") = Ok src_cmake /\
    read_file fs (lit "tests/CMakeLists.txt") = Ok tests_cmake /\
    fst (load_all_content fs []) = Ok all_content /\
    fst (load_html_content fs []) = Ok html_content /\
    unused_src res =
      filter (src_unused src_cmake)
        (get_files fs (lit "src") [lit ".cpp"; lit ".c"]) /\
    unused_tests res =
      filter (src_unused tests_cmake)
        (get_files fs (lit "tests") [lit ".cpp"; lit ".c"]) /\
    unused_headers res =
      filter (header_unused all_content)
        (get_files fs (lit "include") [lit ".h"; lit ".hpp"]) /\
    unused_assets res =
      filter (asset_unused html_content)
        (get_files fs (lit "ui/static") [lit ".js"; lit ".css"]) /\
    out = (((((((out0 ++ header_src ++ [newline])
               ++ printed_lines (unused_src res))
              ++ header_tests ++ [newline])
             ++ printed_lines (unused_tests res))
            ++ header_headers ++ [newline])
           ++ printed_lines (unused_headers res))
          ++ header_assets ++ [newline])
          ++ printed_lines (unused_assets res).
Proof.
  rewrite main_run. cbv zeta.
  destruct (read_file fs (lit "src/CMakeLists.txt")) as [src_cmake|e];
    [|discriminate].
  destruct (read_file fs (lit "tests/CMakeLists.txt")) as [tests_cmake|e];
    [|discriminate].
  destruct (fst (load_all_content fs [])) as [all_content|e]; [|discriminate].
  destruct (fst (load_html_content fs [])) as [html_content|e]; [|discriminate].
  intros E. injection E as <- <-.
  exists src_cmake, tests_cmake, all_content, html_content.
  cbn [unused_src unused_tests unused_headers unused_assets].
  repeat split; reflexivity.
Qed.

Lemma filter_In_negb (used : str -> bool) (files : list str) (f : str) :
  In f (filter (fun f => negb (used f)) files) <-> In f files /\ used f = false.
Proof. rewrite filter_In, negb_true_iff. tauto. Qed.

(** ** Decoding with [errors='ignore'] never fails *)

Lemma emit_some cp (r : option str) :
  (exists s, r = Some s) -> exists s, emit cp r = Some s.
Proof. intros [s ->]. simpl. eauto. Qed.

Lemma utf8_decode_ignore_total (bs : list byte) :
  exists s, utf8_decode Ignore bs = Some s.
Proof.
  assert (G : forall n (l : list byte), length l < n ->
                exists s, utf8_decode Ignore l = Some s).
  { induction n as [|n IH]; intros l Hl; [lia|].
    destruct l as [|b1 r1]; [simpl; eauto|].
    cbn [utf8_decode]. cbv zeta. simpl in Hl.
    assert (H1 : exists s, utf8_decode Ignore r1 = Some s) by (apply IH; lia).
    destruct (_ <? 128)%N; [apply emit_some; exact H1|].
    destruct (_ <? 194)%N; [exact H1|].
    destruct (_ <? 224)%N.
    { destruct r1 as [|b2 r2]; [simpl; eauto|]. simpl in Hl.
      destruct (is_continuation _); [apply emit_some; apply IH; lia | exact H1]. }
    destruct (_ <? 240)%N.
    { destruct r1 as [|b2 r2]; [simpl; eauto|]. simpl in Hl.
      destruct (_ || _); [exact H1|].
      destruct r2 as [|b3 r3]; [simpl; eauto|]. simpl in Hl.
      destruct (is_continuation _);
        [apply emit_some; apply IH; lia | apply IH; simpl; lia]. }
    destruct (_ <? 245)%N; [|exact H1].
    destruct r1 as [|b2 r2]; [simpl; eauto|]. simpl in Hl.
    destruct (_ || _); [exact H1|].
    destruct r2 as [|b3 r3]; [simpl; eauto|]. simpl in Hl.
    destruct (negb _); [apply IH; simpl; lia|].
    destruct r3 as [|b4 r4]; [simpl; eauto|]. simpl in Hl.
    destruct (is_continuation _);
      [apply emit_some; apply IH; lia | apply IH; simpl; lia]. }
  apply (G (S (length bs))). lia.
Qed.

Lemma read_text_ignore_opened fs path data :
  open_bytes fs path = Ok data -> exists text, read_text Ignore fs path = Ok text.
Proof.
  intros H. unfold read_text. rewrite H.
  destruct (utf8_decode_ignore_total data) as [s ->]. eauto.
Qed.

(** Reading files that all open completes. *)
Lemma read_concat_total fs paths :
  (forall p, In p paths -> exists data, open_bytes fs p = Ok data) ->
  exists content, fst (read_concat fs paths []) = Ok content.
Proof.
  unfold read_concat. generalize (@nil codepoint) at 1 as acc.
  induction paths as [|p paths IH]; intros acc Hopen.
  - simpl. eauto.
  - cbn [for_each]. rewrite bind_run. unfold lift at 1.
    destruct (Hopen p (or_introl eq_refl)) as [data Hd].
    destruct (read_text_ignore_opened _ _ _ Hd) as [text ->].
    unfold ret at 1. apply IH. intros q Hq. apply Hopen. right; exact Hq.
Qed.

(** ** Paths and the project tree *)

Lemma node_induction (P : node -> Prop) :
  (forall n, entries_of n = None -> P n) ->
  (forall n es, entries_of n = Some es ->
                Forall (fun e => P (snd e)) es -> P n) ->
  forall n, P n.
Proof.
  intros Hleaf Hdir.
  fix IH 1. intros n.
  destruct (entries_of n) as [es|] eqn:E; [|now apply Hleaf].
  apply (Hdir n es E).
  destruct n as [data|es0| | |es0|]; try discriminate E;
    cbn in E; injection E as <-;
    (induction es0 as [|[name sub] es0 IHes]; constructor;
     [apply IH | exact IHes]).
Qed.

(** Only a directory that can be scanned is walked. *)
Lemma walk_node_leaf top n : entries_of n = None -> walk_node top n = [].
Proof. destruct n; (discriminate || reflexivity). Qed.

Lemma walk_node_entries top n es :
  entries_of n = Some es ->
  walk_node top n =
  (top, dir_names es, file_names es) ::
  flat_map
    (fun e => if walk_into (snd e)
              then walk_node (path_join top (fst e)) (snd e)
              else [])
    es.
Proof.
  destruct n; try discriminate; cbn; intros E; injection E as <-; reflexivity.
Qed.

Lemma resolve_leaf n c comps :
  entries_of n = None -> exists e, resolve n (c :: comps) = Raise e.
Proof. destruct n; try discriminate; cbn; eauto. Qed.

Lemma resolve_entries n es c comps :
  entries_of n = Some es ->
  resolve n (c :: comps) =
  if skipped_component c then resolve n comps
  else match lookup c es with
       | None => Raise FileNotFoundError
       | Some sub => resolve sub comps
       end.
Proof.
  destruct n; try discriminate; cbn; intros E; injection E as <-; reflexivity.
Qed.

Lemma walk_into_entries n : walk_into n = true -> exists es, n = Dir es.
Proof. destruct n; try discriminate. eauto. Qed.

Lemma split_sep_not_nil p : split_sep p <> [].
Proof.
  destruct p as [|c p]; simpl; [discriminate|].
  destruct (c =? sep)%N; [discriminate|].
  destruct (split_sep p); discriminate.
Qed.

Lemma split_sep_app a b :
  split_sep (a ++ sep :: b) = split_sep a ++ split_sep b.
Proof.
  induction a as [|c a IH]; simpl.
  - reflexivity.
  - destruct (c =? sep)%N.
    + now rewrite IH.
    + rewrite IH. destruct (split_sep a) as [|w ws] eqn:E; [|reflexivity].
      now apply split_sep_not_nil in E.
Qed.

Lemma split_sep_name name :
  existsb (N.eqb sep) name = false -> split_sep name = [name].
Proof.
  induction name as [|c name IH]; cbn [existsb split_sep]; [reflexivity|].
  rewrite orb_false_iff. intros [Hc H]. rewrite N.eqb_sym in Hc.
  now rewrite Hc, IH.
Qed.

Lemma resolve_app cur comps1 comps2 :
  resolve cur (comps1 ++ comps2) =
  match resolve cur comps1 with
  | Ok n => resolve n comps2
  | Raise e => Raise e
  end.
Proof.
  revert cur; induction comps1 as [|c comps1 IH]; intros cur; simpl.
  - reflexivity.
  - destruct cur as [data|es| | |es|]; try reflexivity;
      (destruct (skipped_component c); [apply IH|];
       destruct (lookup c es); [apply IH | reflexivity]).
Qed.

Lemma entry_name_ok_inv name :
  entry_name_ok name = true ->
  name <> [] /\ existsb (N.eqb sep) name = false /\
  skipped_component name = false.
Proof.
  unfold entry_name_ok, skipped_component.
  rewrite !andb_true_iff, !negb_true_iff. intros [[[H1 H2] H3] _].
  rewrite H1, H3. repeat split; auto.
  intros ->. discriminate.
Qed.

Lemma resolve_name d es name :
  entries_of d = Some es ->
  entry_name_ok name = true ->
  resolve d [name] =
  match lookup name es with
  | Some n => Ok n
  | None => Raise FileNotFoundError
  end.
Proof.
  intros Hd Hok. apply entry_name_ok_inv in Hok as (_ & _ & Hs).
  rewrite (resolve_entries d es name [] Hd), Hs.
  destruct (lookup name es); reflexivity.
Qed.

Lemma resolve_skip n d : resolve n [[]] = Ok d -> d = n.
Proof.
  destruct n; cbn; try discriminate; intros E; injection E as <-; reflexivity.
Qed.

Lemma endswith_last s c :
  endswith s [c] = true -> exists s', s = s' ++ [c].
Proof.
  unfold endswith. rewrite andb_true_iff, str_eqb_eq. intros [_ E].
  exists (firstn (length s - length [c]) s).
  rewrite <- (firstn_skipn (length s - length [c]) s) at 1. now rewrite E.
Qed.

Lemma name_not_absolute name :
  existsb (N.eqb sep) name = false -> startswith name [sep] = false.
Proof.
  destruct name as [|c name]; [reflexivity|].
  cbn [existsb startswith]. rewrite orb_false_iff, N.eqb_sym.
  intros [-> _]. reflexivity.
Qed.

Lemma path_join_not_nil a b : b <> [] -> path_join a b <> [].
Proof.
  intros Hb. unfold path_join.
  destruct (startswith b [sep]); [exact Hb|].
  destruct (_ || _); intros E; apply app_eq_nil in E as [_ E];
    [auto | discriminate].
Qed.

(** Joining an entry name to a path that leads to a directory leads to that
    entry. *)
Lemma resolve_path_join fs top d es name :
  resolve fs (split_sep top) = Ok d ->
  entries_of d = Some es ->
  entry_name_ok name = true ->
  resolve fs (split_sep (path_join top name)) =
  match lookup name es with
  | Some n => Ok n
  | None => Raise FileNotFoundError
  end.
Proof.
  intros Htop Hd Hok. pose proof (entry_name_ok_inv _ Hok) as (_ & Hsep & _).
  unfold path_join. rewrite (name_not_absolute _ Hsep).
  destruct (str_eqb top [] || endswith top [sep]) eqn:E.
  - apply orb_true_iff in E as [E|E].
    + apply str_eqb_eq in E. subst top. cbn [app].
      rewrite (split_sep_name _ Hsep).
      apply resolve_skip in Htop. subst d. now apply resolve_name.
    + apply endswith_last in E as [t ->].
      rewrite <- app_assoc. cbn [app].
      rewrite split_sep_app, (split_sep_name _ Hsep), resolve_app.
      rewrite split_sep_app, resolve_app in Htop.
      destruct (resolve fs (split_sep t)) as [m|e]; [|discriminate].
      apply resolve_skip in Htop. subst d. now apply resolve_name.
  - cbn [app]. rewrite split_sep_app, (split_sep_name _ Hsep), resolve_app, Htop.
    now apply resolve_name.
Qed.

Lemma lookup_distinct es name n :
  names_distinct es = true -> In (name, n) es -> lookup name es = Some n.
Proof.
  induction es as [|[k m] es IH]; simpl; [tauto|].
  destruct (lookup k es) eqn:Hk; [discriminate|].
  intros Hd [E|Hin].
  - injection E as -> ->.
    now rewrite (proj2 (str_eqb_eq name name) eq_refl).
  - destruct (str_eqb k name) eqn:Ek.
    + apply str_eqb_eq in Ek. subst k. rewrite (IH Hd Hin) in Hk. discriminate.
    + auto.
Qed.

Lemma well_formed_dir n es :
  entries_of n = Some es ->
  well_formed n = true ->
  names_distinct es = true /\
  forall name sub, In (name, sub) es ->
    entry_name_ok name = true /\ well_formed sub = true.
Proof.
  intros E Hwf.
  assert (H : names_distinct es &&
              forallb (fun e => entry_name_ok (fst e) && well_formed (snd e)) es
              = true).
  { destruct n; try discriminate E; cbn in E; injection E as <-; exact Hwf. }
  rewrite andb_true_iff, forallb_forall in H.
  destruct H as [Hd Hall]. split; [exact Hd|].
  intros name sub Hin. apply Hall in Hin. now apply andb_true_iff in Hin.
Qed.

Lemma in_file_names es file :
  In file (file_names es) <-> exists f, In (file, f) es /\ is_dir f = false.
Proof.
  unfold file_names. rewrite in_map_iff. split.
  - intros [[name sub] [<- Hin]]. apply filter_In in Hin as [Hin Hf].
    exists sub. split; [exact Hin | now apply negb_true_iff in Hf].
  - intros (f & Hin & Hf). exists (file, f). split; [reflexivity|].
    apply filter_In. split; [exact Hin | now apply negb_true_iff].
Qed.

(** Every name a walk lists among the files leads, under the path the
    program builds for it, to the entry listed: one that is not a
    directory. *)
Lemma walk_node_lists fs n :
  forall top, well_formed n = true -> resolve fs (split_sep top) = Ok n ->
  forall root dirs files file,
    In (root, dirs, files) (walk_node top n) -> In file files ->
    exists f, resolve fs (split_sep (path_join root file)) = Ok f /\
              is_dir f = false.
Proof.
  induction n as [n Hleaf|n es Hes IH] using node_induction;
    intros top Hwf Htop root dirs files file Hin Hfile.
  { rewrite (walk_node_leaf top n Hleaf) in Hin. contradiction. }
  destruct (well_formed_dir n es Hes Hwf) as [Hd Hall].
  rewrite (walk_node_entries top n es Hes) in Hin. destruct Hin as [E|Hin].
  - injection E as <- <- <-.
    apply in_file_names in Hfile as (f & Hfile & Hf).
    destruct (Hall _ _ Hfile) as [Hok _].
    exists f. split; [|exact Hf].
    erewrite resolve_path_join by eassumption.
    erewrite lookup_distinct by eassumption. reflexivity.
  - apply in_flat_map in Hin as [[name sub] [Hsub Hin]]. cbn [fst snd] in Hin.
    destruct (walk_into sub); [|contradiction].
    rewrite Forall_forall in IH.
    destruct (Hall _ _ Hsub) as [Hok Hwf'].
    apply (IH _ Hsub (path_join top name) Hwf') with (dirs := dirs) (files := files);
      auto.
    erewrite resolve_path_join by eassumption.
    erewrite lookup_distinct by eassumption. reflexivity.
Qed.

Lemma lookup_In name es n :
  lookup name es = Some n -> exists k, In (k, n) es.
Proof.
  induction es as [|[k m] es IH]; simpl; [discriminate|].
  destruct (str_eqb k name).
  - intros E. injection E as ->. eauto.
  - intros H. destruct (IH H) as [k' Hin]. eauto.
Qed.

Lemma resolve_well_formed comps :
  forall fs n, well_formed fs = true -> resolve fs comps = Ok n ->
               well_formed n = true.
Proof.
  induction comps as [|c comps IH]; intros fs n Hwf.
  - cbn. intros E. injection E as <-. exact Hwf.
  - destruct (entries_of fs) as [es|] eqn:Ees.
    + rewrite (resolve_entries fs es c comps Ees).
      destruct (skipped_component c); [now apply IH|].
      destruct (lookup c es) as [m|] eqn:El; [|discriminate].
      apply IH. apply lookup_In in El as [k Hin].
      destruct (well_formed_dir fs es Ees Hwf) as [_ Hall]. now apply (Hall k m).
    + destruct (resolve_leaf fs c comps Ees) as [e ->]. discriminate.
Qed.

Lemma os_walk_lists fs top root dirs files file :
  well_formed fs = true ->
  In (root, dirs, files) (os_walk fs top) -> In file files ->
  exists f, resolve fs (split_sep (path_join root file)) = Ok f /\
            is_dir f = false.
Proof.
  intros Hwf. unfold os_walk.
  destruct (resolve fs (split_sep top)) as [n|e] eqn:E; [|contradiction].
  apply walk_node_lists with (top := top); auto.
  eapply resolve_well_formed; eassumption.
Qed.

(** When the files they select can be opened, both scans complete. *)
Lemma load_all_content_total fs :
  scanned_files_open fs ->
  exists all_content, fst (load_all_content fs []) = Ok all_content.
Proof.
  intros Hopen. rewrite load_all_content_read_concat.
  apply read_concat_total. intros p Hp. apply Hopen. now left.
Qed.

Lemma load_html_content_total fs :
  scanned_files_open fs ->
  exists html_content, fst (load_html_content fs []) = Ok html_content.
Proof.
  intros Hopen. rewrite load_html_content_read_concat.
  apply read_concat_total. intros p Hp. apply Hopen. now right.
Qed.

Lemma build_file_loadable_read fs path :
  build_file_loadable fs path -> exists content, read_file fs path = Ok content.
Proof.
  intros [Hmiss | (data & text & Hopen & Hdec)].
  - exists []. now apply read_file_missing.
  - exists (universal_newlines text). now apply read_file_decoded with (data := data).
Qed.

(** When the scanned files open and the build files load, the run completes. *)
Lemma main_total fs out0 :
  scanned_files_open fs ->
  build_file_loadable fs (lit "src/CMakeLists.txt") ->
  build_file_loadable fs (lit "tests/CMakeLists.txt") ->
  exists res out, main fs out0 = (Ok res, out).
Proof.
  intros Hopen Hs Ht. rewrite main_run. cbv zeta.
  destruct (build_file_loadable_read _ _ Hs) as [src_cmake ->].
  destruct (build_file_loadable_read _ _ Ht) as [tests_cmake ->].
  destruct (load_all_content_total fs Hopen) as [all_content ->].
  destruct (load_html_content_total fs Hopen) as [html_content ->].
  eauto.
Qed.

Lemma resolve_all_readable comps :
  forall fs n, all_readable fs = true -> resolve fs comps = Ok n ->
               all_readable n = true.
Proof.
  induction comps as [|c comps IH]; intros fs n Hr.
  - cbn. intros E. injection E as <-. exact Hr.
  - destruct fs as [data|es| | |es|]; try discriminate Hr; [discriminate|].
    cbn [resolve]. destruct (skipped_component c); [now apply IH|].
    destruct (lookup c es) as [m|] eqn:El; [|discriminate].
    apply IH. apply lookup_In in El as [k Hin].
    cbn [all_readable] in Hr. rewrite forallb_forall in Hr.
    apply (Hr (k, m) Hin).
Qed.

Lemma walk_node_file_names_ok n :
  forall top, well_formed n = true ->
  forall root dirs files file,
    In (root, dirs, files) (walk_node top n) -> In file files ->
    entry_name_ok file = true.
Proof.
  induction n as [n Hleaf|n es Hes IH] using node_induction;
    intros top Hn root dirs files file Hw Hf.
  { rewrite (walk_node_leaf top n Hleaf) in Hw. contradiction. }
  destruct (well_formed_dir n es Hes Hn) as [_ Hall].
  rewrite (walk_node_entries top n es Hes) in Hw.
  destruct Hw as [E|Hw].
  - injection E as _ _ <-. apply in_file_names in Hf as (f & Hin & _).
    now apply (Hall _ _ Hin).
  - apply in_flat_map in Hw as [[name sub] [Hsub Hw]].
    cbn [fst snd] in Hw. destruct (walk_into sub); [|contradiction].
    rewrite Forall_forall in IH.
    apply (IH _ Hsub (path_join top name) (proj2 (Hall _ _ Hsub))
             root dirs files file Hw Hf).
Qed.

(** On a well-formed tree of readable files and directories, every file the
    scans select can be opened. *)
Lemma readable_tree_scans_open fs :
  well_formed fs = true -> all_readable fs = true -> scanned_files_open fs.
Proof.
  intros Hwf Hr p Hp.
  assert (G : forall top root dirs files file,
             In (root, dirs, files) (os_walk fs top) -> In file files ->
             exists data, open_bytes fs (path_join root file) = Ok data).
  { intros top root dirs files file Hw Hf.
    pose proof Hw as Hw'. unfold os_walk in Hw'.
    destruct (resolve fs (split_sep top)) as [n|e] eqn:En; [|contradiction].
    assert (Hn : well_formed n = true)
      by (eapply resolve_well_formed; eassumption).
    pose proof (walk_node_file_names_ok n top Hn root dirs files file Hw' Hf)
      as Hok.
    destruct (os_walk_lists fs top root dirs files file Hwf Hw Hf)
      as (f & Hres & Hdir).
    pose proof (resolve_all_readable _ fs f Hr Hres) as Hf_r.
    destruct f as [data| | | | |]; try discriminate.
    exists data. unfold open_bytes.
    destruct (path_join root file) eqn:Ej.
    - apply path_join_not_nil in Ej; [contradiction|].
      now apply entry_name_ok_inv in Hok.
    - now rewrite Hres. }
  destruct Hp as [Hp|Hp].
  - apply in_flat_map in Hp as [[[root dirs] files] [Hw Hp]].
    destruct (skip_root root); [contradiction|].
    apply in_map_iff in Hp as [file [<- Hf]]. apply filter_In in Hf as [Hf _].
    eapply G; eassumption.
  - apply in_flat_map in Hp as [[[root dirs] files] [Hw Hp]].
    apply in_map_iff in Hp as [file [<- Hf]]. apply filter_In in Hf as [Hf _].
    eapply G; eassumption.
Qed.

Lemma walk_node_files_below n :
  forall top root dirs files file,
    In (root, dirs, files) (walk_node top n) -> In file files ->
    In file (files_below n).
Proof.
  induction n as [n Hleaf|n es Hes IH] using node_induction;
    intros top root dirs files file Hin Hfile.
  { rewrite (walk_node_leaf top n Hleaf) in Hin. contradiction. }
  rewrite (walk_node_entries top n es Hes) in Hin.
  assert (Hb : files_below n =
               flat_map (fun e => if is_dir (snd e)
                                  then files_below (snd e) else [fst e]) es).
  { destruct n; try discriminate Hes; cbn in Hes; injection Hes as <-;
      reflexivity. }
  rewrite Hb. apply in_flat_map.
  destruct Hin as [E|Hin].
  - injection E as <- <- <-.
    apply in_file_names in Hfile as (f & Hfile & Hf).
    exists (file, f). split; [exact Hfile|]. cbn [fst snd]. rewrite Hf. now left.
  - apply in_flat_map in Hin as [[name sub] [Hsub Hin]]. cbn [fst snd] in Hin.
    exists (name, sub). split; [exact Hsub|]. cbn [fst snd].
    destruct (walk_into sub) eqn:Ew; [|contradiction].
    apply walk_into_entries in Ew as [es' ->]. cbn [is_dir].
    rewrite Forall_forall in IH. eapply (IH _ Hsub); eassumption.
Qed.

Lemma filter_none {A : Type} (keep : A -> bool) (l : list A) :
  (forall x, In x l -> keep x = false) -> filter keep l = [].
Proof.
  induction l as [|x l IH]; intros H; simpl; [reflexivity|].
  rewrite (H x (or_introl eq_refl)). apply IH. intros; apply H; now right.
Qed.

Lemma flat_map_none {A B : Type} (f : A -> list B) (l : list A) :
  (forall x, In x l -> f x = []) -> flat_map f l = [].
Proof.
  induction l as [|x l IH]; intros H; simpl; [reflexivity|].
  rewrite (H x (or_introl eq_refl)). apply IH. intros; apply H; now right.
Qed.

(** A root with no matching file gives an empty file list; so does a root
    that cannot be walked. *)
Lemma get_files_none fs top suffixes :
  no_matching_file fs top suffixes -> get_files fs top suffixes = [].
Proof.
  intros Hnone. rewrite get_files_matching. unfold matching_paths.
  apply flat_map_none. intros [[root dirs] files] Hin.
  rewrite filter_none; [reflexivity|]. intros file Hfile.
  unfold os_walk in Hin.
  destruct (resolve fs (split_sep top)) as [n|e] eqn:E; [|contradiction].
  specialize (Hnone n E). rewrite Forall_forall in Hnone.
  apply Hnone. eapply walk_node_files_below; eassumption.
Qed.

Lemma get_files_unwalkable fs top suffixes e :
  resolve fs (split_sep top) = Raise e -> get_files fs top suffixes = [].
Proof.
  intros E. apply get_files_none. intros n H. congruence.
Qed.

Lemma read_text_ext mode fs1 fs2 path :
  open_bytes fs1 path = open_bytes fs2 path ->
  read_text mode fs1 path = read_text mode fs2 path.
Proof. unfold read_text. now intros ->. Qed.

Lemma read_concat_ext fs1 fs2 paths out :
  (forall p, In p paths -> open_bytes fs1 p = open_bytes fs2 p) ->
  read_concat fs1 paths out = read_concat fs2 paths out.
Proof.
  intros H. unfold read_concat. apply for_each_ext.
  intros acc p o Hp. rewrite !bind_run.
  now rewrite (read_text_ext Ignore fs1 fs2 p (H p Hp)).
Qed.

Lemma endswith_spec s suffix :
  endswith s suffix = true <-> exists stem, s = stem ++ suffix.
Proof.
  unfold endswith. rewrite andb_true_iff, str_eqb_eq, Nat.leb_le. split.
  - intros [_ E]. exists (firstn (length s - length suffix) s).
    rewrite <- (firstn_skipn (length s - length suffix) s) at 1. now rewrite E.
  - intros [stem ->]. rewrite length_app. split; [lia|].
    replace (length stem + length suffix - length suffix) with (length stem + 0)
      by lia.
    rewrite skipn_app, Nat.add_0_r, skipn_all.
    replace (length stem - length stem) with 0 by lia. reflexivity.
Qed.

Lemma rfind_sep_succ_none name :
  existsb (N.eqb sep) name = false -> rfind_sep_succ name = 0.
Proof.
  induction name as [|c name IH]; cbn [existsb rfind_sep_succ]; [reflexivity|].
  rewrite orb_false_iff. intros [Hc H]. rewrite N.eqb_sym in Hc.
  now rewrite (IH H), Hc.
Qed.

Lemma rfind_sep_succ_last dir name :
  existsb (N.eqb sep) name = false ->
  rfind_sep_succ (dir ++ sep :: name) = S (length dir).
Proof.
  intros H. induction dir as [|c dir IH]; cbn [app rfind_sep_succ length].
  - now rewrite (rfind_sep_succ_none name H), N.eqb_refl.
  - now rewrite IH.
Qed.

(** The base name is what follows the last separator. *)
Lemma basename_spec :
  (forall dir name, existsb (N.eqb sep) name = false ->
                    basename (dir ++ sep :: name) = name) /\
  (forall name, existsb (N.eqb sep) name = false -> basename name = name).
Proof.
  split.
  - intros dir name H. unfold basename. rewrite (rfind_sep_succ_last dir name H).
    change (dir ++ sep :: name) with (dir ++ [sep] ++ name).
    rewrite app_assoc.
    replace (S (length dir)) with (length (dir ++ [sep]))
      by (rewrite length_app; simpl; lia).
    apply slice_from_app.
  - intros name H. unfold basename. now rewrite (rfind_sep_succ_none name H).
Qed.

Ltac nothing_matches :=
  let n := fresh "n" in
  let H := fresh "H" in
  intros n H; vm_compute in H;
  first [ discriminate H
        | injection H as <-; vm_compute; repeat constructor ].

Ltac scans_open :=
  let p := fresh "p" in
  let H := fresh "H" in
  intros p H; vm_compute in H;
  repeat (destruct H as [H|H]); try contradiction;
  subst p; eexists; vm_compute; reflexivity.

Ltac loads_as_missing := left; reflexivity.
Ltac loads_as_text :=
  right; eexists; eexists; split; vm_compute; reflexivity.

(** ** The empty project *)

(** C9 (amended): on a tree with no matching file under any root, whose two
    build files are each absent or well-formed text, and where every file
    the two scans select can be opened, every call of [get_files] by [main]
    yields no entry, [main] prints the four section headers and nothing
    else, and it terminates normally; a root that is missing or is not a
    directory yields no entry either. *)
Theorem empty_project_prints_headers (fs : node) :
  scanned_files_open fs ->
  no_matching_file fs (lit "src") [lit ".cpp"; lit ".c"] ->
  no_matching_file fs (lit "tests") [lit ".cpp"; lit ".c"] ->
  no_matching_file fs (lit "include") [lit ".h"; lit ".hpp"] ->
  no_matching_file fs (lit "ui/static") [lit ".js"; lit ".css"] ->
  build_file_loadable fs (lit "src/CMakeLists.txt") ->
  build_file_loadable fs (lit "tests/CMakeLists.txt") ->
  get_files fs (lit "src") [lit ".cpp"; lit ".c"] = [] /\
  get_files fs (lit "tests") [lit ".cpp"; lit ".c"] = [] /\
  get_files fs (lit "include") [lit ".h"; lit ".hpp"] = [] /\
  get_files fs (lit "ui/static") [lit ".js"; lit ".css"] = [] /\
  (forall top suffixes e,
      resolve fs (split_sep top) = Raise e -> get_files fs top suffixes = []) /\
  run fs = (Ok {| unused_src := []; unused_tests := [];
                  unused_headers := []; unused_assets := [] |},
            headers_only).
Proof.
  intros Hopen Hsrc Htests Hinc Hui Hbs Hbt.
  apply get_files_none in Hsrc, Htests, Hinc, Hui.
  repeat (split; [assumption|]).
  split; [intros top suffixes e; apply get_files_unwalkable|].
  unfold run. rewrite main_run. cbv zeta.
  rewrite Hsrc, Htests, Hinc, Hui.
  destruct (build_file_loadable_read _ _ Hbs) as [src_cmake ->].
  destruct (build_file_loadable_read _ _ Hbt) as [tests_cmake ->].
  destruct (load_all_content_total fs Hopen) as [all_content ->].
  destruct (load_html_content_total fs Hopen) as [html_content ->].
  reflexivity.
Qed.

Lemma empty_project_prints_headers_witness :
  run tree_no_sources
  = (Ok {| unused_src := []; unused_tests := [];
           unused_headers := []; unused_assets := [] |},
     headers_only).
Proof.
  apply (empty_project_prints_headers tree_no_sources);
    [ scans_open | nothing_matches | nothing_matches | nothing_matches
    | nothing_matches | loads_as_text | loads_as_missing ].
Defined.

(** C9 as stated fails where [src] is a regular file: no file matches under
    any root, yet opening the build file below it raises an error that
    [read_file] does not catch, after the first header only. *)
Lemma src_regular_file_aborts_run :
  well_formed tree_src_is_file = true /\
  no_matching_file tree_src_is_file (lit "src") [lit ".cpp"; lit ".c"] /\
  no_matching_file tree_src_is_file (lit "tests") [lit ".cpp"; lit ".c"] /\
  no_matching_file tree_src_is_file (lit "include") [lit ".h"; lit ".hpp"] /\
  no_matching_file tree_src_is_file (lit "ui/static") [lit ".js"; lit ".css"] /\
  no_matching_file tree_src_is_file (lit "ui") [lit ".html"] /\
  build_file_loadable tree_src_is_file (lit "tests/CMakeLists.txt") /\
  run tree_src_is_file = (Raise NotADirectoryError, header_src ++ [newline]) /\
  run tree_src_is_file <>
    (Ok {| unused_src := []; unused_tests := [];
           unused_headers := []; unused_assets := [] |}, headers_only).
Proof.
  split; [reflexivity|].
  repeat (split; [nothing_matches|]).
  split; [loads_as_missing|].
  split; vm_compute; [reflexivity | discriminate].
Qed.

(** The scans open what the walk lists without a guard: with a header that
    is a dangling link outside every root, and neither roots nor build
    files, the run stops in the aggregate scan after three headers. *)
Lemma dangling_header_aborts_run :
  no_matching_file tree_dangling_header (lit "src") [lit ".cpp"; lit ".c"] /\
  no_matching_file tree_dangling_header (lit "tests") [lit ".cpp"; lit ".c"] /\
  no_matching_file tree_dangling_header (lit "include") [lit ".h"; lit ".hpp"] /\
  no_matching_file tree_dangling_header (lit "ui/static") [lit ".js"; lit ".css"] /\
  build_file_loadable tree_dangling_header (lit "src/CMakeLists.txt") /\
  build_file_loadable tree_dangling_header (lit "tests/CMakeLists.txt") /\
  haystack_paths tree_dangling_header = [lit "./docs/gone.h"] /\
  run tree_dangling_header
  = (Raise FileNotFoundError,
     (header_src ++ [newline]) ++ (header_tests ++ [newline])
     ++ (header_headers ++ [newline])).
Proof.
  repeat (split; [nothing_matches|]).
  split; [loads_as_missing|]. split; [loads_as_missing|].
  split; vm_compute; reflexivity.
Qed.

(** ** The result lists, stated *)

(** C7: when a run completes, each result list is its enumerated file list
    filtered by its checker's negative verdict, order kept, and standard
    output holds the headers and exactly those paths; so a path is in a
    result list only when its checker found no reference to it.  When the
    files the scans select can be opened and the build files load, the run
    does complete. *)
Theorem result_lists_are_checked_files (fs : node) :
  (forall res out,
      run fs = (Ok res, out) ->
      exists src_cmake tests_cmake all_content html_content,
        read_file fs (lit "src/CMakeLists.txt") = Ok src_cmake /\
        read_file fs (lit "tests/CMakeLists.txt") = Ok tests_cmake /\
        fst (load_all_content fs []) = Ok all_content /\
        fst (load_html_content fs []) = Ok html_content /\
        unused_src res =
          filter (fun f => negb (check_cmake_usage f src_cmake))
            (get_files fs (lit "src") [lit ".cpp"; lit ".c"]) /\
        unused_tests res =
          filter (fun f => negb (check_cmake_usage f tests_cmake))
            (get_files fs (lit "tests") [lit ".cpp"; lit ".c"]) /\
        unused_headers res =
          filter (fun h => negb (check_header_usage h all_content))
            (get_files fs (lit "include") [lit ".h"; lit ".hpp"]) /\
        unused_assets res =
          filter (fun asset => negb (contains (basename asset) html_content))
            (get_files fs (lit "ui/static") [lit ".js"; lit ".css"]) /\
        out = (((((((header_src ++ [newline])
                    ++ printed_lines (unused_src res))
                   ++ header_tests ++ [newline])
                  ++ printed_lines (unused_tests res))
                 ++ header_headers ++ [newline])
                ++ printed_lines (unused_headers res))
               ++ header_assets ++ [newline])
              ++ printed_lines (unused_assets res)) /\
  (scanned_files_open fs ->
   build_file_loadable fs (lit "src/CMakeLists.txt") ->
   build_file_loadable fs (lit "tests/CMakeLists.txt") ->
   exists res out, run fs = (Ok res, out)).
Proof.
  split.
  - intros res out Hrun. apply (main_completed fs [] res out Hrun).
  - intros Hopen Hs Ht. apply (main_total fs [] Hopen Hs Ht).
Qed.

Lemma result_lists_are_checked_files_witness :
  exists res out,
    run tree_project = (Ok res, out) /\
    unused_src res = [lit "src/old.c"] /\
    unused_headers res = [lit "include/flow/unused.hpp"] /\
    unused_assets res = [lit "ui/static/extra.css"].
Proof.
  destruct (proj2 (result_lists_are_checked_files tree_project))
    as (res & out & Hrun);
    [ scans_open | loads_as_text | loads_as_missing | ].
  exists res, out. split; [exact Hrun|].
  destruct (proj1 (result_lists_are_checked_files tree_project) res out Hrun)
    as (sc & tc & ac & hc & Hsc & Htc & Hac & Hhc & -> & _ & -> & -> & _).
  vm_compute in Hsc, Hac, Hhc.
  injection Hsc as <-. injection Hac as <-. injection Hhc as <-.
  repeat split; vm_compute; reflexivity.
Defined.

(** ** Determinism *)

(** C8: the output of a run is determined by what the run observes of the
    file system: two file-system states that yield the same traversal, in
    the same order, from each root the program walks, and hold the same
    content at every path, give the same standard output and the same
    outcome. *)
Theorem run_determined_by_observations (fs1 fs2 : node) :
  (forall top,
      In top [lit "src"; lit "tests"; lit "include"; lit ".";
              lit "ui/static"; lit "ui"] ->
      os_walk fs1 top = os_walk fs2 top) ->
  (forall path, open_bytes fs1 path = open_bytes fs2 path) ->
  run fs1 = run fs2.
Proof.
  intros Hwalk Hopen.
  assert (Hget : forall top suffixes,
             os_walk fs1 top = os_walk fs2 top ->
             get_files fs1 top suffixes = get_files fs2 top suffixes).
  { intros top suffixes E. unfold get_files. now rewrite E. }
  assert (Hread : forall path, read_file fs1 path = read_file fs2 path).
  { intros path. unfold read_file.
    now rewrite (read_text_ext Strict fs1 fs2 path (Hopen path)). }
  assert (Hall : load_all_content fs1 [] = load_all_content fs2 []).
  { rewrite !load_all_content_read_concat. unfold haystack_paths.
    rewrite (Hwalk (lit ".")) by (simpl; tauto).
    apply read_concat_ext. intros; apply Hopen. }
  assert (Hhtml : load_html_content fs1 [] = load_html_content fs2 []).
  { rewrite !load_html_content_read_concat. unfold markup_paths.
    rewrite (Hwalk (lit "ui")) by (simpl; tauto).
    apply read_concat_ext. intros; apply Hopen. }
  unfold run. rewrite !main_run.
  rewrite !Hread, Hall, Hhtml.
  rewrite (Hget (lit "src")), (Hget (lit "tests")), (Hget (lit "include")),
    (Hget (lit "ui/static")) by (apply Hwalk; simpl; tauto).
  reflexivity.
Qed.

Lemma run_determined_by_observations_witness :
  run tree_project = run tree_project.
Proof.
  apply (run_determined_by_observations tree_project tree_project);
    intros; reflexivity.
Defined.

(** ** Web assets *)

Lemma markup_paths_In fs p :
  In p (markup_paths fs) <->
  exists root dirs files file,
    In (root, dirs, files) (os_walk fs (lit "ui")) /\ In file files /\
    p = path_join root file /\ exists stem, file = stem ++ lit ".html".
Proof.
  unfold markup_paths. rewrite in_flat_map. split.
  - intros [[[root dirs] files] [Hw Hp]].
    apply in_map_iff in Hp as [file [<- Hf]].
    apply filter_In in Hf as [Hf He]. apply endswith_spec in He.
    exists root, dirs, files, file. auto.
  - intros (root & dirs & files & file & Hw & Hf & -> & He).
    exists (root, dirs, files). split; [exact Hw|].
    apply in_map. apply filter_In. split; [exact Hf|].
    now apply endswith_spec.
Qed.

(** C3: the asset loop reports an asset exactly when its base name, the part
    after the last separator, does not occur in the markup text; the markup
    text is read from the files below [ui] whose names end in [.html] and
    from no other file, so a mention in another script does not count: in
    [tree_script_reference], [app.js] is imported by [main.js] only and is
    reported. *)
Theorem asset_used_iff_basename_in_markup :
  (forall (assets : list str) (html_content out : str),
      exists unused out',
        report_unused (fun asset => contains (basename asset) html_content)
          assets out = (Ok unused, out') /\
        forall asset,
          In asset unused <->
          In asset assets /\ ~ Substring (basename asset) html_content) /\
  (forall dir name : str,
      existsb (N.eqb sep) name = false ->
      basename (dir ++ sep :: name) = name) /\
  (forall fs out,
      load_html_content fs out = read_concat fs (markup_paths fs) out) /\
  (forall fs p,
      In p (markup_paths fs) <->
      exists root dirs files file,
        In (root, dirs, files) (os_walk fs (lit "ui")) /\ In file files /\
        p = path_join root file /\ exists stem, file = stem ++ lit ".html") /\
  markup_paths tree_script_reference = [lit "ui/index.html"] /\
  (exists res out,
      run tree_script_reference = (Ok res, out) /\
      unused_assets res = [lit "ui/static/app.js"]).
Proof.
  split; [|split; [|split; [|split; [|split]]]].
  - intros assets html_content out. rewrite report_unused_run.
    eexists; eexists; split; [reflexivity|].
    intros asset. rewrite filter_In_negb, contains_false. reflexivity.
  - apply basename_spec.
  - apply load_html_content_read_concat.
  - apply markup_paths_In.
  - vm_compute. reflexivity.
  - eexists; eexists; split; vm_compute; reflexivity.
Qed.

Lemma asset_used_iff_basename_in_markup_witness :
  basename (lit "ui/static" ++ sep :: lit "app.js") = lit "app.js".
Proof.
  apply (proj1 (proj2 asset_used_iff_basename_in_markup)). reflexivity.
Defined.

(** ** The aggregate of sources *)

Lemma skip_root_spec root :
  skip_root root = false <->
  ~ Substring (lit "build") root /\ ~ Substring (lit "node_modules") root.
Proof.
  unfold skip_root. rewrite orb_false_iff, !contains_false. reflexivity.
Qed.

Lemma endswith_any_spec s suffixes :
  endswith_any s suffixes = true <->
  exists suffix, In suffix suffixes /\ exists stem, s = stem ++ suffix.
Proof.
  unfold endswith_any. rewrite existsb_exists.
  split; intros [suffix [Hin H]]; exists suffix; split; auto;
    now apply endswith_spec.
Qed.

Lemma haystack_paths_In fs p :
  In p (haystack_paths fs) <->
  exists root dirs files file,
    In (root, dirs, files) (os_walk fs (lit ".")) /\ In file files /\
    p = path_join root file /\
    (exists suffix, In suffix [lit ".cpp"; lit ".c"; lit ".h"; lit ".hpp"] /\
                    exists stem, file = stem ++ suffix) /\
    ~ Substring (lit "build") root /\ ~ Substring (lit "node_modules") root.
Proof.
  unfold haystack_paths. rewrite in_flat_map. split.
  - intros [[[root dirs] files] [Hw Hp]].
    destruct (skip_root root) eqn:Hskip; [contradiction|].
    apply skip_root_spec in Hskip as [Hb Hn].
    apply in_map_iff in Hp as [file [<- Hf]].
    apply filter_In in Hf as [Hf He]. apply endswith_any_spec in He.
    exists root, dirs, files, file. auto 10.
  - intros (root & dirs & files & file & Hw & Hf & -> & He & Hb & Hn).
    exists (root, dirs, files). split; [exact Hw|].
    rewrite (proj2 (skip_root_spec root) (conj Hb Hn)).
    apply in_map. apply filter_In. split; [exact Hf|].
    now apply endswith_any_spec.
Qed.

(** C10 (amended): the aggregate text is read from exactly the files, found
    by walking the working directory, whose names end in [.cpp], [.c], [.h]
    or [.hpp] and whose directory path, as the walk gives it, contains
    neither [build] nor [node_modules] as a substring; so a directory such
    as [rebuild] is passed over like [build] itself, while [prebuilt], which
    does not contain [build], is scanned. *)
Theorem haystack_is_unskipped_sources :
  (forall fs out,
      load_all_content fs out = read_concat fs (haystack_paths fs) out) /\
  (forall fs p,
      In p (haystack_paths fs) <->
      exists root dirs files file,
        In (root, dirs, files) (os_walk fs (lit ".")) /\ In file files /\
        p = path_join root file /\
        (exists suffix,
            In suffix [lit ".cpp"; lit ".c"; lit ".h"; lit ".hpp"] /\
            exists stem, file = stem ++ suffix) /\
        ~ Substring (lit "build") root /\
        ~ Substring (lit "node_modules") root) /\
  (forall before after : str,
      skip_root (before ++ lit "build" ++ after) = true /\
      skip_root (before ++ lit "node_modules" ++ after) = true) /\
  haystack_paths tree_build_like = [lit "./prebuilt/z.cpp"; lit "./lib/l.c"].
Proof.
  split; [|split; [|split]].
  - apply load_all_content_read_concat.
  - apply haystack_paths_In.
  - intros before after. unfold skip_root.
    split; apply orb_true_iff; [left | right];
      apply contains_spec; exists before, after; reflexivity.
  - vm_compute. reflexivity.
Qed.

(** C10 as stated names [prebuilt] among the excluded directories; its
    sources are read into the aggregate. *)
Lemma prebuilt_directory_is_scanned :
  skip_root (lit "./prebuilt") = false /\
  In (lit "./prebuilt/z.cpp") (haystack_paths tree_build_like) /\
  fst (load_all_content tree_build_like [])
    = Ok (lit "int z;" ++ [newline] ++ lit "int l;" ++ [newline]).
Proof.
  split; [reflexivity|]. split; [left; reflexivity|].
  vm_compute. reflexivity.
Qed.

(** * Further properties of the enumerator, the loader and the driver *)

(** ** Plain paths *)

Lemma join_sep_cons c comps :
  comps <> [] -> join_sep (c :: comps) = c ++ sep :: join_sep comps.
Proof. destruct comps; [congruence | reflexivity]. Qed.

Lemma join_sep_snoc comps c :
  comps <> [] -> join_sep (comps ++ [c]) = join_sep comps ++ sep :: c.
Proof.
  induction comps as [|d comps IH]; [congruence|]. intros _.
  destruct comps as [|d' comps].
  - reflexivity.
  - change ((d :: d' :: comps) ++ [c]) with (d :: ((d' :: comps) ++ [c])).
    rewrite join_sep_cons by (cbn; discriminate).
    rewrite IH by discriminate.
    rewrite (join_sep_cons d (d' :: comps)) by discriminate.
    now rewrite <- app_assoc.
Qed.

Lemma join_sep_app comps more :
  comps <> [] -> more <> [] ->
  join_sep (comps ++ more) = join_sep comps ++ sep :: join_sep more.
Proof.
  intros Hc. revert comps Hc.
  induction more as [|m more IH]; intros comps Hc Hm; [congruence|].
  destruct more as [|m' more].
  - now apply join_sep_snoc.
  - change (comps ++ m :: m' :: more) with (comps ++ [m] ++ (m' :: more)).
    rewrite app_assoc, IH
      by (try discriminate; destruct comps; cbn; discriminate).
    rewrite join_sep_snoc by exact Hc.
    rewrite (join_sep_cons m (m' :: more)) by discriminate.
    rewrite <- app_assoc. reflexivity.
Qed.

Lemma plain_no_sep comps :
  plain_components comps ->
  Forall (fun c => existsb (N.eqb sep) c = false) comps.
Proof.
  apply Forall_impl. intros c H. now apply entry_name_ok_inv in H.
Qed.

(** ["/".join(comps).split("/") == comps] when no component holds a
    separator. *)
Lemma split_sep_join comps :
  comps <> [] -> Forall (fun c => existsb (N.eqb sep) c = false) comps ->
  split_sep (join_sep comps) = comps.
Proof.
  induction comps as [|c comps IH]; [congruence|]. intros _ Hall.
  inversion Hall as [|? ? Hc Hrest]; subst.
  destruct comps as [|d comps].
  - now apply split_sep_name.
  - rewrite join_sep_cons by discriminate.
    rewrite split_sep_app, (split_sep_name _ Hc), IH by (auto; discriminate).
    reflexivity.
Qed.

Lemma normpath_steps comps acc :
  plain_components comps ->
  fold_left normpath_step comps acc = rev comps ++ acc.
Proof.
  intros Hall. revert acc.
  induction Hall as [|c comps Hc Hall IH]; intros acc; [reflexivity|].
  cbn [fold_left rev]. rewrite IH, <- app_assoc. cbn [app].
  unfold normpath_step.
  destruct (entry_name_ok_inv _ Hc) as (_ & _ & ->).
  unfold entry_name_ok in Hc. rewrite !andb_true_iff, !negb_true_iff in Hc.
  destruct Hc as [_ ->]. reflexivity.
Qed.

Lemma join_sep_not_nil comps :
  comps <> [] -> plain_components comps -> join_sep comps <> [].
Proof.
  intros Hne Hall. destruct comps as [|c comps]; [congruence|].
  inversion Hall as [|? ? Hc Hrest]; subst.
  apply entry_name_ok_inv in Hc as (Hc & _).
  destruct comps as [|d comps]; [exact Hc|].
  rewrite join_sep_cons by discriminate.
  intros E. apply app_eq_nil in E as [E _]. contradiction.
Qed.

(** [normpath] leaves a path of entry names as it is. *)
Lemma normpath_plain comps :
  comps <> [] -> plain_components comps ->
  normpath (join_sep comps) = join_sep comps.
Proof.
  intros Hne Hall. unfold normpath.
  rewrite split_sep_join by (auto using plain_no_sep).
  rewrite normpath_steps, app_nil_r, rev_involutive by exact Hall.
  destruct (join_sep comps) eqn:E; [|reflexivity].
  now apply join_sep_not_nil in E.
Qed.

Lemma plain_not_trailing_sep comps stem :
  comps <> [] -> plain_components comps -> join_sep comps <> stem ++ [sep].
Proof.
  intros Hne Hall. revert stem.
  induction Hall as [|c comps Hc Hall IH]; [congruence|]. intros stem E.
  destruct comps as [|d comps].
  - cbn in E. apply entry_name_ok_inv in Hc as (_ & Hc & _).
    rewrite E, existsb_app in Hc. cbn in Hc.
    rewrite orb_true_r in Hc. discriminate.
  - rewrite join_sep_cons in E by discriminate.
    assert (Hd : join_sep (d :: comps) <> [])
      by (apply join_sep_not_nil; [discriminate | exact Hall]).
    destruct (exists_last Hd) as (body & x & Eb).
    rewrite Eb in E.
    change (c ++ sep :: body ++ [x]) with (c ++ (sep :: body) ++ [x]) in E.
    rewrite app_assoc in E. apply app_inj_tail in E as [_ ->].
    apply (IH ltac:(discriminate) body). exact Eb.
Qed.

(** Joining an entry name to a plain path appends one component. *)
Lemma path_join_plain comps name :
  comps <> [] -> plain_components comps -> entry_name_ok name = true ->
  path_join (join_sep comps) name = join_sep (comps ++ [name]).
Proof.
  intros Hne Hall Hok. unfold path_join.
  destruct (entry_name_ok_inv _ Hok) as (_ & Hsep & _).
  rewrite (name_not_absolute _ Hsep).
  destruct (str_eqb (join_sep comps) [] || endswith (join_sep comps) [sep]) eqn:E.
  - apply orb_true_iff in E as [E|E].
    + apply str_eqb_eq in E. now apply join_sep_not_nil in E.
    + apply endswith_last in E as [stem E].
      now apply plain_not_trailing_sep in E.
  - rewrite join_sep_snoc by exact Hne. reflexivity.
Qed.

(** ** What the enumerator returns *)

Ltac app_not_nil :=
  let E := fresh "E" in
  intros E; apply app_eq_nil in E; destruct E; congruence.

Lemma plain_In comps c :
  plain_components comps -> In c comps -> entry_name_ok c = true.
Proof. unfold plain_components. rewrite Forall_forall. auto. Qed.

(** Below a plain path the walk yields plain paths, and lists entry names. *)
Lemma walk_node_plain n :
  forall comps, well_formed n = true -> comps <> [] -> plain_components comps ->
  forall root dirs files,
    In (root, dirs, files) (walk_node (join_sep comps) n) ->
    exists more,
      plain_components more /\ root = join_sep (comps ++ more) /\
      plain_components files.
Proof.
  induction n as [n Hleaf|n es Hes IH] using node_induction;
    intros comps Hwf Hne Hall root dirs files Hin.
  { rewrite (walk_node_leaf _ n Hleaf) in Hin. contradiction. }
  destruct (well_formed_dir n es Hes Hwf) as [Hd Hall_es].
  rewrite (walk_node_entries _ n es Hes) in Hin. destruct Hin as [E|Hin].
  - injection E as <- <- <-. exists []. rewrite app_nil_r.
    repeat split; [constructor|].
    apply Forall_forall. intros file Hfile.
    apply in_file_names in Hfile as (f & Hfile & _).
    now apply (Hall_es _ _ Hfile).
  - apply in_flat_map in Hin as [[name sub] [Hsub Hin]]. cbn [fst snd] in Hin.
    destruct (walk_into sub); [|contradiction].
    destruct (Hall_es _ _ Hsub) as [Hok Hwf'].
    rewrite path_join_plain in Hin by assumption.
    rewrite Forall_forall in IH.
    assert (Hne' : comps ++ [name] <> []) by (destruct comps; discriminate).
    assert (Hall' : plain_components (comps ++ [name]))
      by (apply Forall_app; split; [exact Hall | now constructor]).
    destruct (IH _ Hsub (comps ++ [name]) Hwf' Hne' Hall' root dirs files Hin)
      as (more & Hmore & -> & Hfiles).
    exists (name :: more). rewrite <- app_assoc.
    repeat split; [now constructor | exact Hfiles].
Qed.

Lemma os_walk_plain fs comps root dirs files :
  well_formed fs = true -> comps <> [] -> plain_components comps ->
  In (root, dirs, files) (os_walk fs (join_sep comps)) ->
  exists more,
    plain_components more /\ root = join_sep (comps ++ more) /\
    plain_components files.
Proof.
  intros Hwf Hne Hall. unfold os_walk.
  destruct (resolve fs (split_sep (join_sep comps))) as [n|e] eqn:E;
    [|contradiction].
  apply walk_node_plain; auto.
  eapply resolve_well_formed; eassumption.
Qed.

Lemma get_files_In fs directory extensions p :
  In p (get_files fs directory extensions) <->
  exists root dirs files file,
    In (root, dirs, files) (os_walk fs directory) /\ In file files /\
    endswith_any file extensions = true /\
    p = relpath (path_join root file).
Proof.
  rewrite get_files_matching. unfold matching_paths. rewrite in_flat_map. split.
  - intros [[[root dirs] files] [Hw Hp]].
    apply in_map_iff in Hp as [file [<- Hf]]. apply filter_In in Hf as [Hf He].
    exists root, dirs, files, file. auto.
  - intros (root & dirs & files & file & Hw & Hf & He & ->).
    exists (root, dirs, files). split; [exact Hw|].
    apply in_map_iff. exists file. split; [reflexivity|].
    apply filter_In. auto.
Qed.

Lemma get_files_plain_paths
  (fs : node) (comps : list str) (extensions : list str) (p : str) :
  well_formed fs = true -> comps <> [] -> plain_components comps ->
  In p (get_files fs (join_sep comps) extensions) ->
  exists more file,
    plain_components more /\ entry_name_ok file = true /\
    endswith_any file extensions = true /\
    p = join_sep comps ++ sep :: join_sep (more ++ [file]).
Proof.
  intros Hwf Hne Hall Hp.
  apply get_files_In in Hp as (root & dirs & files & file & Hw & Hf & He & ->).
  destruct (os_walk_plain fs comps root dirs files Hwf Hne Hall Hw)
    as (more & Hmore & -> & Hfiles).
  assert (Hok : entry_name_ok file = true)
    by (now apply (plain_In files)).
  assert (Hne' : comps ++ more <> []) by app_not_nil.
  assert (Hall' : plain_components (comps ++ more))
    by (apply Forall_app; auto).
  exists more, file. repeat split; auto.
  rewrite path_join_plain by assumption.
  unfold relpath. rewrite normpath_plain.
  - rewrite <- app_assoc. apply join_sep_app; [exact Hne|].
    app_not_nil.
  - app_not_nil.
  - apply Forall_app. split; [exact Hall' | now constructor].
Qed.

(** X1: on a well-formed tree, every path [get_files] returns for a
    directory given by entry names is that directory's path, a separator,
    and then entry names joined by separators, the last of which is a file
    name with one of the suffixes: the relative path is returned as joined,
    and it lies under the directory. *)
Theorem get_files_paths_under_directory
  (fs : node) (comps : list str) (extensions : list str) (p : str) :
  well_formed fs = true -> comps <> [] -> plain_components comps ->
  In p (get_files fs (join_sep comps) extensions) ->
  exists more file,
    plain_components more /\ entry_name_ok file = true /\
    endswith_any file extensions = true /\
    p = join_sep comps ++ sep :: join_sep (more ++ [file]).
Proof. apply get_files_plain_paths. Qed.

Lemma get_files_paths_under_directory_witness :
  exists more file,
    plain_components more /\ entry_name_ok file = true /\
    endswith_any file [lit ".h"; lit ".hpp"] = true /\
    lit "include/flow/unused.hpp"
      = join_sep [lit "include"] ++ sep :: join_sep (more ++ [file]).
Proof.
  apply (get_files_paths_under_directory tree_project [lit "include"]
           [lit ".h"; lit ".hpp"] (lit "include/flow/unused.hpp")).
  - reflexivity.
  - discriminate.
  - repeat constructor.
  - vm_compute. tauto.
Defined.

Lemma get_files_relpath_joined fs comps extensions p :
  well_formed fs = true -> comps <> [] -> plain_components comps ->
  In p (get_files fs (join_sep comps) extensions) ->
  exists root dirs files file,
    In (root, dirs, files) (os_walk fs (join_sep comps)) /\ In file files /\
    p = path_join root file.
Proof.
  intros Hwf Hne Hall Hp.
  apply get_files_In in Hp as (root & dirs & files & file & Hw & Hf & He & ->).
  exists root, dirs, files, file. repeat split; auto.
  destruct (os_walk_plain fs comps root dirs files Hwf Hne Hall Hw)
    as (more & Hmore & -> & Hfiles).
  assert (Hok : entry_name_ok file = true)
    by (now apply (plain_In files)).
  rewrite path_join_plain;
    [ | app_not_nil | apply Forall_app; auto | exact Hok ].
  unfold relpath. apply normpath_plain; [app_not_nil|].
  apply Forall_app. split; [apply Forall_app; auto | now constructor].
Qed.

Lemma get_files_lists fs comps extensions p :
  well_formed fs = true -> comps <> [] -> plain_components comps ->
  In p (get_files fs (join_sep comps) extensions) ->
  exists f, resolve fs (split_sep p) = Ok f /\ is_dir f = false.
Proof.
  intros Hwf Hne Hall Hp.
  destruct (get_files_relpath_joined fs comps extensions p Hwf Hne Hall Hp)
    as (root & dirs & files & file & Hw & Hf & ->).
  eapply os_walk_lists; eassumption.
Qed.




Lemma lookup_In_name name es n :
  lookup name es = Some n -> In (name, n) es.
Proof.
  induction es as [|[k m] es IH]; simpl; [discriminate|].
  destruct (str_eqb k name) eqn:E.
  - apply str_eqb_eq in E. intros H. injection H as ->. subst k. now left.
  - intros H. right. now apply IH.
Qed.

(** A directory the walk reaches through entry names is visited, under the
    path joined from those names. *)
Lemma walk_node_reaches comps :
  forall n top es,
    plain_components comps -> enter n comps = Some es ->
    In (descend top comps, dir_names es, file_names es) (walk_node top n).
Proof.
  induction comps as [|c comps IH]; intros n top es Hall Hent.
  - cbn in Hent. rewrite (walk_node_entries top n es Hent). now left.
  - inversion Hall as [|? ? Hc Hrest]; subst.
    cbn [enter] in Hent.
    destruct (entries_of n) as [es0|] eqn:E0; [|discriminate].
    destruct (lookup c es0) as [sub|] eqn:El; [|discriminate].
    destruct (walk_into sub) eqn:Ew; [|discriminate].
    rewrite (walk_node_entries top n es0 E0). right. apply in_flat_map.
    exists (c, sub). split; [now apply lookup_In_name|].
    cbn [fst snd]. rewrite Ew. now apply IH.
Qed.

Lemma descend_plain comps :
  forall dcomps, dcomps <> [] -> plain_components dcomps ->
    plain_components comps ->
    descend (join_sep dcomps) comps = join_sep (dcomps ++ comps).
Proof.
  induction comps as [|c comps IH]; intros dcomps Hne Hd Hall.
  - now rewrite app_nil_r.
  - inversion Hall as [|? ? Hc Hrest]; subst.
    unfold descend. cbn [fold_left]. rewrite path_join_plain by assumption.
    change (fold_left path_join comps (join_sep (dcomps ++ [c])))
      with (descend (join_sep (dcomps ++ [c])) comps).
    rewrite IH; [now rewrite <- app_assoc | app_not_nil | | exact Hrest].
    apply Forall_app. split; [exact Hd | now constructor].
Qed.

Lemma get_files_complete fs dcomps comps name n es f extensions :
  dcomps <> [] -> plain_components dcomps -> plain_components comps ->
  entry_name_ok name = true ->
  resolve fs dcomps = Ok n -> enter n comps = Some es ->
  lookup name es = Some f -> is_dir f = false ->
  endswith_any name extensions = true ->
  In (join_sep (dcomps ++ comps ++ [name]))
     (get_files fs (join_sep dcomps) extensions).
Proof.
  intros Hne Hd Hall Hok Hres Hent Hl Hf He.
  apply lookup_In_name in Hl.
  apply get_files_In.
  exists (descend (join_sep dcomps) comps), (dir_names es), (file_names es), name.
  split; [|split; [|split]].
  - unfold os_walk. rewrite split_sep_join, Hres by (auto using plain_no_sep).
    now apply walk_node_reaches.
  - apply in_file_names. eauto.
  - exact He.
  - rewrite descend_plain by assumption.
    assert (Hall' : plain_components (dcomps ++ comps))
      by (apply Forall_app; auto).
    rewrite path_join_plain; [ | app_not_nil | exact Hall' | exact Hok ].
    unfold relpath. rewrite normpath_plain.
    + now rewrite <- app_assoc.
    + app_not_nil.
    + apply Forall_app. split; [exact Hall' | now constructor].
Qed.

(** X3: [get_files] misses nothing the walk can reach: every entry that is
    not a directory, whose name has one of the suffixes, and that lies below
    the directory through subdirectories the walk descends (real directories
    that can be scanned, not links), is returned under the path joined from
    the directory and those names. *)
Theorem get_files_returns_every_reachable_file
  (fs : node) (dcomps comps : list str) (name : str) (n : node)
  (es : list (str * node)) (f : node) (extensions : list str) :
  dcomps <> [] -> plain_components dcomps -> plain_components comps ->
  entry_name_ok name = true ->
  resolve fs dcomps = Ok n -> enter n comps = Some es ->
  lookup name es = Some f -> is_dir f = false ->
  endswith_any name extensions = true ->
  In (join_sep (dcomps ++ comps ++ [name]))
     (get_files fs (join_sep dcomps) extensions).
Proof. apply get_files_complete. Qed.

Lemma get_files_returns_every_reachable_file_witness :
  In (lit "src/real/r.cpp")
     (get_files tree_links (lit "src") [lit ".cpp"; lit ".c"]).
Proof.
  eapply (get_files_returns_every_reachable_file tree_links
            [lit "src"] [lit "real"] (lit "r.cpp")).
  - discriminate.
  - repeat constructor.
  - repeat constructor.
  - reflexivity.
  - reflexivity.
  - reflexivity.
  - reflexivity.
  - reflexivity.
  - reflexivity.
Defined.

Lemma get_files_has_prefix fs comps extensions p :
  well_formed fs = true -> comps <> [] -> plain_components comps ->
  In p (get_files fs (join_sep comps) extensions) ->
  exists rest, p = (join_sep comps ++ [sep]) ++ rest.
Proof.
  intros Hwf Hne Hall Hp.
  destruct (get_files_plain_paths fs comps extensions p Hwf Hne Hall Hp)
    as (more & file & _ & _ & _ & ->).
  exists (join_sep (more ++ [file])). now rewrite <- app_assoc.
Qed.

(** ** The checkers on the lists of the driver *)

(** X4: on a well-formed tree the checkers never take their default branch
    on the lists [main] passes them: for each enumerated source or test the
    build-file check is the substring test on the path without its root, and
    for each enumerated header the check is the test for the two include
    forms. *)
Theorem enumerated_paths_avoid_defaults (fs : node) :
  well_formed fs = true ->
  (forall f content,
      In f (get_files fs (lit "src") [lit ".cpp"; lit ".c"]) ->
      HasPrefix (lit "src/") f /\
      check_cmake_usage f content = contains (slice_from 4 f) content) /\
  (forall f content,
      In f (get_files fs (lit "tests") [lit ".cpp"; lit ".c"]) ->
      HasPrefix (lit "tests/") f /\
      check_cmake_usage f content = contains (slice_from 6 f) content) /\
  (forall h content,
      In h (get_files fs (lit "include") [lit ".h"; lit ".hpp"]) ->
      HasPrefix (lit "include/") h /\
      check_header_usage h content =
        contains ([dquote] ++ slice_from 8 h ++ [dquote]) content
        || contains (lit "<" ++ slice_from 8 h ++ lit ">") content).
Proof.
  intros Hwf. split; [|split].
  - intros f content Hf.
    destruct (get_files_has_prefix fs [lit "src"] [lit ".cpp"; lit ".c"] f Hwf
                ltac:(discriminate) ltac:(repeat constructor) Hf) as [rest ->].
    split; [exists rest; reflexivity | reflexivity].
  - intros f content Hf.
    destruct (get_files_has_prefix fs [lit "tests"] [lit ".cpp"; lit ".c"] f Hwf
                ltac:(discriminate) ltac:(repeat constructor) Hf) as [rest ->].
    split; [exists rest; reflexivity | reflexivity].
  - intros h content Hh.
    destruct (get_files_has_prefix fs [lit "include"] [lit ".h"; lit ".hpp"] h Hwf
                ltac:(discriminate) ltac:(repeat constructor) Hh) as [rest ->].
    split; [exists rest; reflexivity | reflexivity].
Qed.

Lemma enumerated_paths_avoid_defaults_witness :
  HasPrefix (lit "src/") (lit "src/old.c") /\
  check_cmake_usage (lit "src/old.c") (lit "main.cpp")
    = contains (slice_from 4 (lit "src/old.c")) (lit "main.cpp").
Proof.
  apply (proj1 (enumerated_paths_avoid_defaults tree_project eq_refl)).
  vm_compute. tauto.
Defined.

(** ** Directories the aggregate scan passes over *)

Lemma path_join_prefix top name :
  entry_name_ok name = true -> HasPrefix top (path_join top name).
Proof.
  intros Hok. apply entry_name_ok_inv in Hok as (_ & Hsep & _).
  unfold path_join. rewrite (name_not_absolute _ Hsep).
  destruct (_ || _); eexists; reflexivity.
Qed.

Lemma walk_node_roots_prefix n :
  forall top, well_formed n = true ->
  forall root dirs files,
    In (root, dirs, files) (walk_node top n) -> HasPrefix top root.
Proof.
  induction n as [n Hleaf|n es Hes IH] using node_induction;
    intros top Hwf root dirs files Hin.
  { rewrite (walk_node_leaf top n Hleaf) in Hin. contradiction. }
  destruct (well_formed_dir n es Hes Hwf) as [_ Hall].
  rewrite (walk_node_entries top n es Hes) in Hin. destruct Hin as [E|Hin].
  - injection E as <- _ _. exists []. now rewrite app_nil_r.
  - apply in_flat_map in Hin as [[name sub] [Hsub Hin]]. cbn [fst snd] in Hin.
    destruct (walk_into sub); [|contradiction].
    destruct (Hall _ _ Hsub) as [Hok Hwf'].
    rewrite Forall_forall in IH.
    destruct (IH _ Hsub _ Hwf' _ _ _ Hin) as [r2 ->].
    destruct (path_join_prefix top name Hok) as [r1 ->].
    exists (r1 ++ r2). now rewrite app_assoc.
Qed.

Lemma contains_prefix_mono needle s rest :
  contains needle s = true -> contains needle (s ++ rest) = true.
Proof.
  rewrite !contains_spec. intros (pre & post & ->).
  exists pre, (post ++ rest). now rewrite <- !app_assoc.
Qed.

Lemma skip_root_extends top rest :
  skip_root top = true -> skip_root (top ++ rest) = true.
Proof.
  unfold skip_root. rewrite !orb_true_iff.
  intros [H|H]; [left | right]; now apply contains_prefix_mono.
Qed.

(** X5: a directory whose path the scan passes over hides its whole subtree:
    although the walk still descends into it, on a well-formed tree every
    directory below has a path that is passed over as well, so no file at
    any depth below it is read into the aggregate. *)
Theorem skipped_directory_hides_subtree (n : node) (top : str) :
  well_formed n = true -> skip_root top = true ->
  (forall root dirs files,
      In (root, dirs, files) (walk_node top n) -> skip_root root = true) /\
  scanned_paths (walk_node top n) = [].
Proof.
  intros Hwf Hskip.
  assert (H : forall root dirs files,
             In (root, dirs, files) (walk_node top n) -> skip_root root = true).
  { intros root dirs files Hin.
    destruct (walk_node_roots_prefix n top Hwf root dirs files Hin) as [r ->].
    now apply skip_root_extends. }
  split; [exact H|].
  unfold scanned_paths. apply flat_map_none.
  intros [[root dirs] files] Hin. now rewrite (H root dirs files Hin).
Qed.

Lemma skipped_directory_hides_subtree_witness :
  scanned_paths
    (walk_node (lit "./build")
       (Dir [(lit "gen", Dir [(lit "g.cpp", text_file "int g;")])])) = [].
Proof.
  apply (skipped_directory_hides_subtree
           (Dir [(lit "gen", Dir [(lit "g.cpp", text_file "int g;")])])
           (lit "./build")); reflexivity.
Defined.

(** ** Searching the aggregate *)

Lemma substring_not_nil needle : needle <> [] -> ~ Substring needle [].
Proof.
  intros Hne (pre & post & E). symmetry in E.
  apply app_eq_nil in E as [_ E]. apply app_eq_nil in E as [E _]. auto.
Qed.

(** An occurrence in two texts joined by a character the needle lacks lies
    in one of the two. *)
Lemma substring_split_at needle a c b :
  needle <> [] -> ~ In c needle ->
  Substring needle (a ++ c :: b) -> Substring needle a \/ Substring needle b.
Proof.
  intros Hne Hc (pre & post & E).
  apply app_eq_app in E as [l [[Ea Eb] | [Ea Eb]]].
  - apply app_eq_app in Eb as [l2 [[E1 E2] | [E1 E2]]].
    + destruct l2 as [|x l2].
      * left. exists pre, []. rewrite app_nil_r in E1. subst. 
        now rewrite app_nil_r.
      * exfalso. apply Hc. cbn in E2. injection E2 as <- _. rewrite E1.
        apply in_elt.
    + left. exists pre, l2. subst. reflexivity.
  - destruct l as [|x l].
    + exfalso. cbn in Eb. destruct needle as [|y needle]; [congruence|].
      injection Eb as -> _. apply Hc. now left.
    + right. cbn in Eb. injection Eb as _ ->. exists l, post. reflexivity.
Qed.

Lemma aggregate_contains texts needle :
  needle <> [] -> ~ In newline needle ->
  (Substring needle (aggregate texts) <->
   exists text, In text texts /\ Substring needle text).
Proof.
  intros Hne Hnl. split.
  - induction texts as [|t texts IH]; intros H.
    + now apply substring_not_nil in H.
    + cbn [aggregate flat_map] in H. rewrite <- app_assoc in H. cbn [app] in H.
      apply substring_split_at in H as [H|H]; auto.
      * exists t. split; [now left | exact H].
      * destruct (IH H) as (text & Hin & Hs). exists text. split; [now right | exact Hs].
  - intros (text & Hin & (pre & post & ->)).
    apply in_split in Hin as (l1 & l2 & ->).
    unfold aggregate. rewrite flat_map_app. cbn [flat_map].
    exists (flat_map (fun text => text ++ [newline]) l1 ++ pre),
      (post ++ [newline] ++ flat_map (fun text => text ++ [newline]) l2).
    now rewrite <- !app_assoc.
Qed.

(** What a completed aggregate read holds: the texts of the files, in order,
    each followed by a newline. *)
Lemma for_each_read_aggregate fs paths :
  forall acc content,
    fst (for_each paths acc
           (fun content p =>
              text <- lift (read_text Ignore fs p) ;;
              ret (content ++ text ++ [newline])) []) = Ok content ->
    exists texts,
      Forall2 (fun p text => read_text Ignore fs p = Ok text) paths texts /\
      content = acc ++ aggregate texts.
Proof.
  induction paths as [|p paths IH]; intros acc content H.
  - cbn in H. injection H as <-. exists []. split; [constructor|].
    now rewrite app_nil_r.
  - cbn [for_each] in H. rewrite bind_run in H. unfold lift at 1 in H.
    destruct (read_text Ignore fs p) as [text|e] eqn:Er; [|discriminate].
    unfold ret at 1 in H. apply IH in H as (texts & Hall & ->).
    exists (text :: texts). split; [now constructor|].
    cbn [aggregate flat_map]. now rewrite <- !app_assoc.
Qed.

Lemma read_concat_aggregate fs paths content :
  fst (read_concat fs paths []) = Ok content ->
  exists texts,
    Forall2 (fun p text => read_text Ignore fs p = Ok text) paths texts /\
    content = aggregate texts.
Proof. intros H. now apply for_each_read_aggregate in H. Qed.

Lemma Forall2_In_iff {A B : Type} (R : A -> B -> Prop) l1 l2 :
  Forall2 R l1 l2 ->
  (forall y, In y l2 -> exists x, In x l1 /\ R x y) /\
  (forall x, In x l1 -> exists y, In y l2 /\ R x y).
Proof.
  induction 1 as [|x y l1 l2 HR Hall [IH1 IH2]].
  { split; intros ? []. }
  split.
  - intros y' [<-|Hin]; [exists x; split; [now left | exact HR]|].
    destruct (IH1 y' Hin) as (x' & Hx & Hr). exists x'. split; [now right | exact Hr].
  - intros x' [<-|Hin]; [exists y; split; [now left | exact HR]|].
    destruct (IH2 x' Hin) as (y' & Hy & Hr). exists y'. split; [now right | exact Hr].
Qed.

(** A needle without a newline occurs in a completed aggregate exactly when
    it occurs in the text of one of the files read. *)
Lemma read_concat_contains fs paths content needle :
  fst (read_concat fs paths []) = Ok content ->
  needle <> [] -> ~ In newline needle ->
  (Substring needle content <->
   exists p text,
     In p paths /\ read_text Ignore fs p = Ok text /\ Substring needle text).
Proof.
  intros Hread Hne Hnl.
  apply read_concat_aggregate in Hread as (texts & Hall & ->).
  apply Forall2_In_iff in Hall as [Htexts Hpaths].
  rewrite (aggregate_contains texts needle Hne Hnl). split.
  - intros (text & Hin & Hs). destruct (Htexts text Hin) as (p & Hp & Hr).
    exists p, text. auto.
  - intros (p & text & Hp & Hr & Hs).
    destruct (Hpaths p Hp) as (text' & Hin & Hr').
    rewrite Hr in Hr'. injection Hr' as <-. exists text. auto.
Qed.

Lemma check_header_usage_one_file
  (fs : node) (all_content rest : str) :
  fst (load_all_content fs []) = Ok all_content ->
  ~ In newline rest ->
  (check_header_usage (lit "include/" ++ rest) all_content = true <->
   exists p text,
     In p (haystack_paths fs) /\ read_text Ignore fs p = Ok text /\
     (Substring ([dquote] ++ rest ++ [dquote]) text \/
      Substring (lit "<" ++ rest ++ lit ">") text)).
Proof.
  intros Hload Hnl. rewrite load_all_content_read_concat in Hload.
  rewrite check_header_usage_include, orb_true_iff, !contains_spec.
  assert (Hq : ~ In newline ([dquote] ++ rest ++ [dquote])).
  { rewrite !in_app_iff. cbn. intros [[H|[]] | [H | [H|[]]]];
      try discriminate H; auto. }
  assert (Ha : ~ In newline (lit "<" ++ rest ++ lit ">")).
  { rewrite !in_app_iff. cbn. intros [[H|[]] | [H | [H|[]]]];
      try discriminate H; auto. }
  assert (Hq0 : [dquote] ++ rest ++ [dquote] <> []) by (cbn; discriminate).
  assert (Ha0 : lit "<" ++ rest ++ lit ">" <> []) by (cbn; discriminate).
  rewrite (read_concat_contains fs _ all_content _ Hload Hq0 Hq).
  rewrite (read_concat_contains fs _ all_content _ Hload Ha0 Ha).
  split.
  - intros [(p & text & Hp & Hr & Hs) | (p & text & Hp & Hr & Hs)];
      exists p, text; auto.
  - intros (p & text & Hp & Hr & [Hs|Hs]); [left | right];
      exists p, text; auto.
Qed.

(** X6: when the aggregate scan completes, a header [include/rest] whose
    path holds no newline is taken as used exactly when the text of one
    single scanned file contains one of its two include forms: a match never
    runs across two files. *)
Theorem header_used_iff_one_file_includes
  (fs : node) (all_content rest : str) :
  fst (load_all_content fs []) = Ok all_content ->
  ~ In newline rest ->
  (check_header_usage (lit "include/" ++ rest) all_content = true <->
   exists p text,
     In p (haystack_paths fs) /\ read_text Ignore fs p = Ok text /\
     (Substring ([dquote] ++ rest ++ [dquote]) text \/
      Substring (lit "<" ++ rest ++ lit ">") text)).
Proof. apply check_header_usage_one_file. Qed.

Lemma header_used_iff_one_file_includes_witness :
  exists all_content,
    fst (load_all_content tree_project []) = Ok all_content /\
    (check_header_usage (lit "include/" ++ lit "flow/flow.h") all_content = true
     <->
     exists p text,
       In p (haystack_paths tree_project) /\
       read_text Ignore tree_project p = Ok text /\
       (Substring ([dquote] ++ lit "flow/flow.h" ++ [dquote]) text \/
        Substring (lit "<" ++ lit "flow/flow.h" ++ lit ">") text)).
Proof.
  eexists. split; [vm_compute; reflexivity|].
  apply (header_used_iff_one_file_includes tree_project).
  - vm_compute. reflexivity.
  - vm_compute. intuition discriminate.
Defined.

(** X7: when the markup scan completes, an asset whose base name is not
    empty and holds no newline is taken as used exactly when the text of one
    single markup file contains that base name. *)
Theorem asset_used_iff_one_markup_file_mentions
  (fs : node) (html_content asset : str) :
  fst (load_html_content fs []) = Ok html_content ->
  basename asset <> [] -> ~ In newline (basename asset) ->
  (contains (basename asset) html_content = true <->
   exists p text,
     In p (markup_paths fs) /\ read_text Ignore fs p = Ok text /\
     Substring (basename asset) text).
Proof.
  intros Hload Hne Hnl. rewrite load_html_content_read_concat in Hload.
  rewrite contains_spec. now apply read_concat_contains.
Qed.

Lemma asset_used_iff_one_markup_file_mentions_witness :
  exists html_content,
    fst (load_html_content tree_project []) = Ok html_content /\
    (contains (basename (lit "ui/static/app.js")) html_content = true <->
     exists p text,
       In p (markup_paths tree_project) /\
       read_text Ignore tree_project p = Ok text /\
       Substring (basename (lit "ui/static/app.js")) text).
Proof.
  eexists. split; [vm_compute; reflexivity|].
  apply (asset_used_iff_one_markup_file_mentions tree_project).
  - vm_compute. reflexivity.
  - vm_compute. discriminate.
  - vm_compute. intuition discriminate.
Defined.

(** ** Where a run can stop *)







(** ** Base names *)

Lemma basename_no_sep p : existsb (N.eqb sep) (basename p) = false.
Proof.
  unfold basename, slice_from.
  induction p as [|c p IH]; [reflexivity|].
  cbn [rfind_sep_succ]. destruct (rfind_sep_succ p) as [|i].
  - cbn [skipn] in IH. destruct (N.eqb c sep) eqn:Ec.
    + exact IH.
    + cbn [skipn existsb]. rewrite (N.eqb_sym sep c), Ec. exact IH.
  - exact IH.
Qed.

(** X9: the base name never holds a separator, and the asset test looks at
    the base name alone: two assets with the same file name in different
    directories get the same verdict, whatever the markup. *)
Theorem asset_verdict_ignores_directory :
  (forall p : str, existsb (N.eqb sep) (basename p) = false) /\
  (forall dir1 dir2 name html_content : str,
      existsb (N.eqb sep) name = false ->
      contains (basename (dir1 ++ sep :: name)) html_content
      = contains (basename (dir2 ++ sep :: name)) html_content /\
      contains (basename (dir1 ++ sep :: name)) html_content
      = contains name html_content).
Proof.
  split; [exact basename_no_sep|].
  intros dir1 dir2 name html_content H.
  now rewrite !(proj1 basename_spec _ _ H).
Qed.

Lemma asset_verdict_ignores_directory_witness :
  contains (basename (lit "ui/static/a" ++ sep :: lit "app.js")) (lit "app.js")
  = contains (basename (lit "ui/static/b" ++ sep :: lit "app.js")) (lit "app.js").
Proof.
  apply (proj2 asset_verdict_ignores_directory
           (lit "ui/static/a") (lit "ui/static/b") (lit "app.js") (lit "app.js")).
  reflexivity.
Defined.

(** ** Text that makes a file count as used *)

Lemma contains_mono needle hay pre post :
  contains needle hay = true -> contains needle (pre ++ hay ++ post) = true.
Proof.
  rewrite !contains_spec. intros (l & r & ->).
  exists (pre ++ l), (r ++ post). now rewrite <- !app_assoc.
Qed.

Lemma contains_trans short long hay :
  Substring short long -> contains long hay = true ->
  contains short hay = true.
Proof.
  rewrite !contains_spec. intros (l & r & ->) (pre & post & ->).
  exists (pre ++ l), (r ++ post). now rewrite <- !app_assoc.
Qed.

(** X10: both checkers only ever gain from more text: a path found used
    stays used when text is added before or after the content; and a source
    whose path below the root occurs inside the path of another source that
    is found used is found used as well. *)
Theorem usage_checks_monotone :
  (forall path content pre post : str,
      check_cmake_usage path content = true ->
      check_cmake_usage path (pre ++ content ++ post) = true) /\
  (forall header content pre post : str,
      check_header_usage header content = true ->
      check_header_usage header (pre ++ content ++ post) = true) /\
  (forall short long content : str,
      Substring short long ->
      (check_cmake_usage (lit "src/" ++ long) content = true ->
       check_cmake_usage (lit "src/" ++ short) content = true) /\
      (check_cmake_usage (lit "tests/" ++ long) content = true ->
       check_cmake_usage (lit "tests/" ++ short) content = true)).
Proof.
  split; [|split].
  - intros path content pre post. unfold check_cmake_usage. cbv zeta.
    destruct (startswith path (lit "src/")); [apply contains_mono|].
    destruct (startswith path (lit "tests/")); [apply contains_mono | auto].
  - intros header content pre post. unfold check_header_usage. cbv zeta.
    destruct (startswith header (lit "include/")); [|auto].
    rewrite !orb_true_iff. intros [H|H]; [left | right];
      now apply contains_mono.
  - intros short long content Hs.
    rewrite !check_cmake_usage_src, !check_cmake_usage_tests.
    split; now apply contains_trans.
Qed.

Lemma usage_checks_monotone_witness :
  check_cmake_usage (lit "src/" ++ lit "a.cpp")
    (lit "add_library(d data.cpp)") = true.
Proof.
  apply (proj1 (proj2 (proj2 usage_checks_monotone) (lit "a.cpp")
                 (lit "data.cpp") (lit "add_library(d data.cpp)")
                 ltac:(exists (lit "dat"), []; reflexivity))).
  reflexivity.
Defined.

(** ** Strict and lossy reads *)

Lemma emit_inv cp r s :
  emit cp r = Some s -> exists s', r = Some s' /\ s = cp :: s'.
Proof.
  destruct r as [s'|]; [|discriminate]. cbn. intros H.
  injection H as <-. eauto.
Qed.

Lemma utf8_decode_strict_ignore (bs : list byte) (s : str) :
  utf8_decode Strict bs = Some s -> utf8_decode Ignore bs = Some s.
Proof.
  assert (G : forall n (l : list byte) s, length l < n ->
                utf8_decode Strict l = Some s -> utf8_decode Ignore l = Some s).
  { clear bs s. induction n as [|n IH]; intros l s Hl; [lia|].
    destruct l as [|b1 r1]; [auto|].
    cbn [utf8_decode]. cbv zeta. simpl in Hl.
    assert (Hemit : forall cp r, length r < n ->
              emit cp (utf8_decode Strict r) = Some s ->
              emit cp (utf8_decode Ignore r) = Some s).
    { intros cp r Hr H. apply emit_inv in H as (s' & H & ->).
      now rewrite (IH r s' Hr H). }
    destruct (_ <? 128)%N; [apply Hemit; lia|].
    destruct (_ <? 194)%N; [discriminate|].
    destruct (_ <? 224)%N.
    { destruct r1 as [|b2 r2]; [discriminate|]. simpl in Hl.
      destruct (is_continuation _); [apply Hemit; lia | discriminate]. }
    destruct (_ <? 240)%N.
    { destruct r1 as [|b2 r2]; [discriminate|]. simpl in Hl.
      destruct (_ || _); [discriminate|].
      destruct r2 as [|b3 r3]; [discriminate|]. simpl in Hl.
      destruct (is_continuation _); [apply Hemit; lia | discriminate]. }
    destruct (_ <? 245)%N; [|discriminate].
    destruct r1 as [|b2 r2]; [discriminate|]. simpl in Hl.
    destruct (_ || _); [discriminate|].
    destruct r2 as [|b3 r3]; [discriminate|]. simpl in Hl.
    destruct (negb _); [discriminate|].
    destruct r3 as [|b4 r4]; [discriminate|]. simpl in Hl.
    destruct (is_continuation _); [apply Hemit; lia | discriminate]. }
  apply (G (S (length bs))). lia.
Qed.

(** X11: for a build file that exists, whatever text [read_file] returns is
    also what the lossy read of the aggregate scans returns for the same
    file: the two ways of reading differ only on files that do not decode. *)
Theorem read_file_agrees_with_lossy_read
  (fs : node) (path : str) (data : list byte) (text : str) :
  open_bytes fs path = Ok data ->
  read_file fs path = Ok text ->
  read_text Ignore fs path = Ok text.
Proof.
  intros Hopen. unfold read_file, read_text. rewrite Hopen.
  destruct (utf8_decode Strict data) as [s|] eqn:E; [|discriminate].
  intros H. injection H as <-.
  now rewrite (utf8_decode_strict_ignore data s E).
Qed.

Lemma read_file_agrees_with_lossy_read_witness :
  read_text Ignore tree_project (lit "src/CMakeLists.txt")
  = Ok (lit "add_executable(dpi main.cpp)").
Proof.
  eapply (read_file_agrees_with_lossy_read tree_project);
    vm_compute; reflexivity.
Defined.

(** ** Order of the scan *)

(** X12: the verdict on a header whose path holds no newline does not depend
    on the order in which the aggregate scan meets the files: two completed
    scans that read the same set of paths, with the same text at each, agree
    on the header, whatever the order of their traversals. *)
Theorem header_verdict_independent_of_scan_order
  (fs1 fs2 : node) (content1 content2 rest : str) :
  fst (load_all_content fs1 []) = Ok content1 ->
  fst (load_all_content fs2 []) = Ok content2 ->
  (forall p, In p (haystack_paths fs1) <-> In p (haystack_paths fs2)) ->
  (forall p, In p (haystack_paths fs1) ->
             read_text Ignore fs1 p = read_text Ignore fs2 p) ->
  ~ In newline rest ->
  check_header_usage (lit "include/" ++ rest) content1
  = check_header_usage (lit "include/" ++ rest) content2.
Proof.
  intros H1 H2 Hsame Hread Hnl.
  pose proof (check_header_usage_one_file fs1 content1 rest H1 Hnl) as E1.
  pose proof (check_header_usage_one_file fs2 content2 rest H2 Hnl) as E2.
  assert (E : check_header_usage (lit "include/" ++ rest) content1 = true <->
              check_header_usage (lit "include/" ++ rest) content2 = true).
  { rewrite E1, E2. split; intros (p & text & Hp & Hr & Hs); exists p, text.
    - repeat split; [now apply Hsame | now rewrite <- Hread | exact Hs].
    - apply Hsame in Hp. repeat split; [exact Hp | now rewrite Hread | exact Hs]. }
  destruct (check_header_usage _ content1), (check_header_usage _ content2);
    try reflexivity.
  - symmetry. now apply E.
  - now apply E.
Qed.

Lemma header_verdict_independent_of_scan_order_witness :
  exists content1 content2,
    fst (load_all_content tree_project []) = Ok content1 /\
    fst (load_all_content tree_project_reordered []) = Ok content2 /\
    content1 <> content2 /\
    check_header_usage (lit "include/" ++ lit "flow/flow.h") content1
    = check_header_usage (lit "include/" ++ lit "flow/flow.h") content2.
Proof.
  eexists. eexists.
  split; [vm_compute; reflexivity|]. split; [vm_compute; reflexivity|].
  split; [vm_compute; discriminate|].
  apply (header_verdict_independent_of_scan_order
           tree_project tree_project_reordered).
  - vm_compute. reflexivity.
  - vm_compute. reflexivity.
  - intros p. vm_compute. tauto.
  - intros p H. vm_compute in H.
    repeat (destruct H as [<-|H]; [vm_compute; reflexivity|]).
    contradiction.
  - vm_compute. intuition discriminate.
Defined.

(** ** No path twice *)

Lemma map_flat_map {A B C : Type} (f : A -> list B) (g : B -> C) l :
  map g (flat_map f l) = flat_map (fun a => map g (f a)) l.
Proof.
  induction l as [|a l IH]; [reflexivity|].
  cbn [flat_map]. now rewrite map_app, IH.
Qed.

(** Lists that carry distinct keys, taken one after the other, hold no
    element twice. *)
Lemma NoDup_flat_map_key {A B K : Type}
  (f : A -> list B) (key : B -> K) (k : A -> K) (l : list A) :
  NoDup (map k l) ->
  (forall a, In a l -> NoDup (f a)) ->
  (forall a b, In a l -> In b (f a) -> key b = k a) ->
  NoDup (flat_map f l).
Proof.
  induction l as [|a l IH]; intros Hk Hf Hkey; [constructor|].
  cbn [map] in Hk. apply NoDup_cons_iff in Hk as [Hnotin Hk].
  cbn [flat_map]. apply NoDup_app.
  - apply Hf. now left.
  - apply IH; auto.
    + intros a' Ha'. apply Hf. now right.
    + intros a' b Ha'. apply Hkey. now right.
  - intros b Hb Hb'. apply in_flat_map in Hb' as (a' & Ha' & Hb').
    apply Hnotin. apply in_map_iff. exists a'. split; [|exact Ha'].
    rewrite <- (Hkey a b (or_introl eq_refl) Hb).
    symmetry. apply Hkey; [now right | exact Hb'].
Qed.

Lemma join_sep_inj a b :
  a <> [] -> b <> [] -> plain_components a -> plain_components b ->
  join_sep a = join_sep b -> a = b.
Proof.
  intros Ha Hb Pa Pb E.
  rewrite <- (split_sep_join a Ha (plain_no_sep a Pa)).
  rewrite <- (split_sep_join b Hb (plain_no_sep b Pb)).
  now rewrite E.
Qed.

Lemma lookup_none_notin name es :
  lookup name es = None -> ~ In name (map fst es).
Proof.
  induction es as [|[k m] es IH]; simpl; [tauto|].
  destruct (str_eqb k name) eqn:E; [discriminate|].
  intros H [Hk|Hin]; [|now apply IH].
  subst k. now rewrite (proj2 (str_eqb_eq name name) eq_refl) in E.
Qed.

Lemma names_distinct_nodup es :
  names_distinct es = true -> NoDup (map fst es).
Proof.
  induction es as [|[k m] es IH]; simpl; [constructor|].
  destruct (lookup k es) eqn:E; [discriminate|].
  intros H. constructor; [now apply lookup_none_notin | now apply IH].
Qed.

Lemma NoDup_map_filter {A B : Type} (f : A -> B) (keep : A -> bool) l :
  NoDup (map f l) -> NoDup (map f (filter keep l)).
Proof.
  induction l as [|a l IH]; [auto|]. cbn [map filter].
  intros H. apply NoDup_cons_iff in H as [Hnotin H].
  destruct (keep a); [|now apply IH].
  cbn [map]. constructor; [|now apply IH].
  intros Hin. apply Hnotin. apply in_map_iff in Hin as (x & <- & Hx).
  apply filter_In in Hx as [Hx _]. now apply in_map.
Qed.

Lemma walk_node_files_nodup n :
  forall top, well_formed n = true ->
  forall root dirs files,
    In (root, dirs, files) (walk_node top n) -> NoDup files.
Proof.
  induction n as [n Hleaf|n es Hes IH] using node_induction;
    intros top Hwf root dirs files Hin.
  { rewrite (walk_node_leaf top n Hleaf) in Hin. contradiction. }
  destruct (well_formed_dir n es Hes Hwf) as [Hd Hall].
  rewrite (walk_node_entries top n es Hes) in Hin. destruct Hin as [E|Hin].
  - injection E as _ _ <-. unfold file_names.
    apply NoDup_map_filter. now apply names_distinct_nodup.
  - apply in_flat_map in Hin as [[name sub] [Hsub Hin]]. cbn [fst snd] in Hin.
    destruct (walk_into sub); [|contradiction].
    rewrite Forall_forall in IH.
    eapply (IH _ Hsub); [now apply (Hall name sub) | exact Hin].
Qed.

Lemma walk_node_roots_nodup n :
  forall comps, well_formed n = true -> comps <> [] -> plain_components comps ->
    NoDup (map (fun e : walk_entry => fst (fst e))
             (walk_node (join_sep comps) n)).
Proof.
  induction n as [n Hleaf|n es Hes IH] using node_induction;
    intros comps Hwf Hne Hall.
  { rewrite (walk_node_leaf _ n Hleaf). constructor. }
  destruct (well_formed_dir n es Hes Hwf) as [Hd Hall_es].
  rewrite (walk_node_entries _ n es Hes).
  cbn [map fst]. rewrite map_flat_map.
  assert (Hsub : forall name sub root dirs files,
             In (name, sub) es ->
             In (root, dirs, files)
                (if walk_into sub
                 then walk_node (path_join (join_sep comps) name) sub else []) ->
             exists more, plain_components more /\
                          root = join_sep (comps ++ name :: more)).
  { intros name sub root dirs files He Hin.
    destruct (walk_into sub); [|contradiction].
    destruct (Hall_es _ _ He) as [Hok Hwf'].
    rewrite path_join_plain in Hin by assumption.
    apply walk_node_plain in Hin as (more & Hmore & -> & _); auto.
    - exists more. split; [exact Hmore|]. now rewrite <- app_assoc.
    - app_not_nil.
    - apply Forall_app. split; [exact Hall | now constructor]. }
  constructor.
  - intros Hin. apply in_flat_map in Hin as ([name sub] & He & Hin).
    cbn [fst snd] in Hin. apply in_map_iff in Hin as ([[root dirs] files] & Er & Hin).
    cbn [fst] in Er. subst root.
    destruct (Hsub _ _ _ _ _ He Hin) as (more & Hmore & E).
    destruct (Hall_es _ _ He) as [Hok _].
    apply join_sep_inj in E; auto.
    + apply (f_equal (@length str)) in E. rewrite length_app in E.
      cbn in E. lia.
    + app_not_nil.
    + apply Forall_app. split; [exact Hall | now constructor].
  - apply NoDup_flat_map_key
      with (key := fun root => nth (length comps) (split_sep root) [])
           (k := fst).
    + now apply names_distinct_nodup.
    + intros [name sub] He. cbn [fst snd].
      destruct (walk_into sub) eqn:Edir; [|constructor].
      destruct (Hall_es _ _ He) as [Hok Hwf'].
      rewrite path_join_plain by assumption.
      rewrite Forall_forall in IH. apply (IH _ He); auto.
      * app_not_nil.
      * apply Forall_app. split; [exact Hall | now constructor].
    + intros [name sub] root He Hin. cbn [fst snd] in Hin |- *.
      apply in_map_iff in Hin as ([[root' dirs] files] & Er & Hin).
      cbn [fst] in Er. subst root'.
      destruct (Hsub _ _ _ _ _ He Hin) as (more & Hmore & ->).
      destruct (Hall_es _ _ He) as [Hok _].
      rewrite split_sep_join.
      * apply nth_middle.
      * app_not_nil.
      * apply plain_no_sep. apply Forall_app.
        split; [exact Hall | now constructor].
Qed.

Lemma relpath_path_join_plain rc file :
  rc <> [] -> plain_components rc -> entry_name_ok file = true ->
  relpath (path_join (join_sep rc) file) = join_sep (rc ++ [file]).
Proof.
  intros Hne Hall Hok. rewrite path_join_plain by assumption.
  unfold relpath. apply normpath_plain; [app_not_nil|].
  apply Forall_app. split; [exact Hall | now constructor].
Qed.

Lemma get_files_nodup fs comps extensions :
  well_formed fs = true -> comps <> [] -> plain_components comps ->
  NoDup (get_files fs (join_sep comps) extensions).
Proof.
  intros Hwf Hne Hall. rewrite get_files_matching. unfold matching_paths, os_walk.
  destruct (resolve fs (split_sep (join_sep comps))) as [n|e] eqn:E;
    [|constructor].
  assert (Hn : well_formed n = true)
    by (eapply resolve_well_formed; eassumption).
  assert (Hentry : forall root dirs files,
             In (root, dirs, files) (walk_node (join_sep comps) n) ->
             exists rc, rc <> [] /\ plain_components rc /\ root = join_sep rc /\
                        plain_components files /\ NoDup files).
  { intros root dirs files Hin.
    pose proof (walk_node_files_nodup n _ Hn _ _ _ Hin) as Hnd.
    apply walk_node_plain in Hin as (more & Hmore & -> & Hfiles); auto.
    exists (comps ++ more). repeat split; auto; [app_not_nil|].
    apply Forall_app. auto. }
  apply NoDup_flat_map_key
    with (key := fun p => join_sep (removelast (split_sep p)))
         (k := fun e : walk_entry => fst (fst e)).
  - now apply walk_node_roots_nodup.
  - intros [[root dirs] files] Hin.
    destruct (Hentry _ _ _ Hin) as (rc & Hrc & Prc & -> & Hfiles & Hnd).
    apply NoDup_map_NoDup_ForallPairs; [|now apply NoDup_filter].
    intros f1 f2 H1 H2 Ef.
    apply filter_In in H1 as [H1 _]. apply filter_In in H2 as [H2 _].
    rewrite !relpath_path_join_plain in Ef
      by (auto; eapply plain_In; eassumption).
    apply join_sep_inj in Ef.
    + now apply app_inv_head in Ef; injection Ef.
    + app_not_nil.
    + app_not_nil.
    + apply Forall_app. split; [exact Prc|].
      constructor; [eapply plain_In; eassumption | constructor].
    + apply Forall_app. split; [exact Prc|].
      constructor; [eapply plain_In; eassumption | constructor].
  - intros [[root dirs] files] p Hin Hp. cbn [fst].
    destruct (Hentry _ _ _ Hin) as (rc & Hrc & Prc & -> & Hfiles & Hnd).
    apply in_map_iff in Hp as (file & <- & Hf).
    apply filter_In in Hf as [Hf _].
    assert (Hok : entry_name_ok file = true) by (eapply plain_In; eassumption).
    rewrite relpath_path_join_plain by assumption.
    rewrite split_sep_join.
    + now rewrite removelast_last.
    + app_not_nil.
    + apply plain_no_sep. apply Forall_app. split; [exact Prc | now constructor].
Qed.

(** X13: on a well-formed tree [get_files] returns no path twice, so no file
    is reported twice in a section. *)
Theorem get_files_no_duplicates
  (fs : node) (comps : list str) (extensions : list str) :
  well_formed fs = true -> comps <> [] -> plain_components comps ->
  NoDup (get_files fs (join_sep comps) extensions).
Proof. apply get_files_nodup. Qed.

Lemma get_files_no_duplicates_witness :
  NoDup (get_files tree_project (lit "ui/static") [lit ".js"; lit ".css"]).
Proof.
  apply (get_files_no_duplicates tree_project [lit "ui"; lit "static"]).
  - reflexivity.
  - discriminate.
  - repeat constructor.
Defined.

(** ** Enumerated files in the aggregate *)

(** Each directory a walk yields is one the walk reaches through entry
    names. *)
Lemma walk_node_enters n :
  forall comps, well_formed n = true -> comps <> [] -> plain_components comps ->
  forall root dirs files,
    In (root, dirs, files) (walk_node (join_sep comps) n) ->
    exists more es,
      plain_components more /\ root = join_sep (comps ++ more) /\
      enter n more = Some es /\
      dirs = dir_names es /\ files = file_names es.
Proof.
  induction n as [n Hleaf|n es Hes IH] using node_induction;
    intros comps Hwf Hne Hall root dirs files Hin.
  { rewrite (walk_node_leaf _ n Hleaf) in Hin. contradiction. }
  destruct (well_formed_dir n es Hes Hwf) as [Hd Hall_es].
  rewrite (walk_node_entries _ n es Hes) in Hin. destruct Hin as [E|Hin].
  - injection E as <- <- <-. exists [], es. rewrite app_nil_r.
    repeat split; [constructor | exact Hes].
  - apply in_flat_map in Hin as [[name sub] [Hsub Hin]]. cbn [fst snd] in Hin.
    destruct (walk_into sub) eqn:Ew; [|contradiction].
    destruct (Hall_es _ _ Hsub) as [Hok Hwf'].
    rewrite path_join_plain in Hin by assumption.
    rewrite Forall_forall in IH.
    assert (Hne' : comps ++ [name] <> []) by app_not_nil.
    assert (Hall' : plain_components (comps ++ [name]))
      by (apply Forall_app; split; [exact Hall | now constructor]).
    destruct (IH _ Hsub (comps ++ [name]) Hwf' Hne' Hall' root dirs files Hin)
      as (more & es' & Hmore & -> & Hent & -> & ->).
    exists (name :: more), es'. rewrite <- app_assoc.
    repeat split; [now constructor|].
    cbn [enter]. rewrite Hes, (lookup_distinct es name sub Hd Hsub), Ew.
    exact Hent.
Qed.

Lemma enter_app comps :
  forall n d es more,
    plain_components comps -> enter n comps = Some es ->
    resolve n comps = Ok d ->
    enter n (comps ++ more) = enter d more.
Proof.
  induction comps as [|c comps IH]; intros n d es more Hall Hent Hres.
  - cbn in Hres. injection Hres as <-. reflexivity.
  - inversion Hall as [|? ? Hc Hrest]; subst.
    cbn [app enter] in Hent |- *.
    destruct (entries_of n) as [es0|] eqn:E0; [|discriminate].
    rewrite (resolve_entries n es0 c comps E0) in Hres.
    destruct (entry_name_ok_inv _ Hc) as (_ & _ & Hs). rewrite Hs in Hres.
    destruct (lookup c es0) as [sub|]; [|discriminate].
    destruct (walk_into sub); [|discriminate].
    now apply IH with (es := es).
Qed.

Lemma endswith_app_nonempty pre top c :
  top <> [] -> endswith (pre ++ top) [c] = endswith top [c].
Proof.
  intros Hne. destruct (exists_last Hne) as (t & x & ->).
  destruct (endswith (t ++ [x]) [c]) eqn:E.
  - apply endswith_spec in E as [stem E]. apply app_inj_tail in E as [_ ->].
    apply endswith_spec. exists (pre ++ t). now rewrite app_assoc.
  - destruct (endswith (pre ++ t ++ [x]) [c]) eqn:E'; [|reflexivity].
    apply endswith_spec in E' as [stem E']. rewrite app_assoc in E'.
    apply app_inj_tail in E' as [_ ->].
    assert (endswith (t ++ [c]) [c] = true)
      by (apply endswith_spec; eauto).
    congruence.
Qed.

Lemma str_eqb_not_nil s : s <> [] -> str_eqb s [] = false.
Proof. destruct s; [congruence | reflexivity]. Qed.

Lemma path_join_under pre top name :
  entry_name_ok name = true -> top <> [] ->
  path_join (pre ++ top) name = pre ++ path_join top name.
Proof.
  intros Hok Hne. apply entry_name_ok_inv in Hok as (_ & Hsep & _).
  unfold path_join. rewrite (name_not_absolute _ Hsep).
  rewrite endswith_app_nonempty by exact Hne.
  rewrite (str_eqb_not_nil top Hne), str_eqb_not_nil by app_not_nil.
  cbn [orb]. destruct (endswith top [sep]); now rewrite <- app_assoc.
Qed.

Lemma descend_under comps :
  forall pre top, plain_components comps -> top <> [] ->
    descend (pre ++ top) comps = pre ++ descend top comps.
Proof.
  induction comps as [|c comps IH]; intros pre top Hall Hne; [reflexivity|].
  inversion Hall as [|? ? Hc Hrest]; subst.
  unfold descend. cbn [fold_left]. rewrite path_join_under by assumption.
  apply IH; [exact Hrest|]. apply path_join_not_nil.
  now apply entry_name_ok_inv in Hc.
Qed.

(** The path under which the scan of the working directory meets the
    directory reached through [comps]. *)
Lemma descend_dot comps :
  comps <> [] -> plain_components comps ->
  descend (lit ".") comps = lit "./" ++ join_sep comps.
Proof.
  intros Hne Hall. destruct comps as [|c comps]; [congruence|].
  inversion Hall as [|? ? Hc Hrest]; subst.
  unfold descend. cbn [fold_left].
  assert (E : path_join (lit ".") c = lit "./" ++ join_sep [c]).
  { unfold path_join. destruct (entry_name_ok_inv _ Hc) as (_ & Hsep & _).
    now rewrite (name_not_absolute _ Hsep). }
  rewrite E.
  change (fold_left path_join comps (lit "./" ++ join_sep [c]))
    with (descend (lit "./" ++ join_sep [c]) comps).
  rewrite descend_under; [|exact Hrest|].
  - rewrite descend_plain; auto; [discriminate | now constructor].
  - apply join_sep_not_nil; [discriminate | now constructor].
Qed.

Lemma skip_root_dot_slash p : skip_root (lit "./" ++ p) = skip_root p.
Proof.
  assert (G : forall word, word <> [] -> ~ In 46%N word -> ~ In sep word ->
                contains word (lit "./" ++ p) = contains word p).
  { intros word Hne Hdot Hsl.
    destruct (contains word p) eqn:E.
    - apply contains_spec in E as (l & r & ->). apply contains_spec.
      exists (lit "./" ++ l), r. now rewrite <- app_assoc.
    - apply contains_false. intros H. apply contains_false in E. apply E.
      change (lit "./" ++ p) with ([46%N] ++ sep :: p) in H.
      apply substring_split_at in H as [H|H]; auto.
      change [46%N] with ([] ++ 46%N :: []) in H.
      apply substring_split_at in H as [H|H]; auto;
        now apply substring_not_nil in H. }
  unfold skip_root.
  rewrite !G; try reflexivity; try discriminate;
    cbn; intuition discriminate.
Qed.

Lemma endswith_any_incl s suffixes1 suffixes2 :
  incl suffixes1 suffixes2 ->
  endswith_any s suffixes1 = true -> endswith_any s suffixes2 = true.
Proof.
  unfold endswith_any. rewrite !existsb_exists.
  intros Hincl (x & Hx & H). exists x. auto.
Qed.

Lemma enumerated_in_haystack fs comps es0 extensions p :
  well_formed fs = true -> comps <> [] -> plain_components comps ->
  enter fs comps = Some es0 ->
  incl extensions source_suffixes ->
  In p (get_files fs (join_sep comps) extensions) ->
  skip_root p = false ->
  In (lit "./" ++ p) (haystack_paths fs).
Proof.
  intros Hwf Hne Hall Hent0 Hincl Hp Hskip.
  apply get_files_In in Hp as (root & dirs & files & file & Hw & Hf & He & ->).
  unfold os_walk in Hw. rewrite split_sep_join in Hw
    by (auto using plain_no_sep).
  destruct (resolve fs comps) as [n|e] eqn:En; [|contradiction].
  assert (Hn : well_formed n = true)
    by (eapply resolve_well_formed; eassumption).
  pose proof (walk_node_plain n comps Hn Hne Hall _ _ _ Hw)
    as (_ & _ & _ & Hfiles).
  apply walk_node_enters in Hw
    as (more & es & Hmore & -> & Hent & -> & ->); auto.
  assert (Hok : entry_name_ok file = true) by (eapply plain_In; eassumption).
  assert (Hrc : comps ++ more <> []) by app_not_nil.
  assert (Prc : plain_components (comps ++ more)) by (apply Forall_app; auto).
  rewrite relpath_path_join_plain in Hskip |- * by assumption.
  assert (Hfs : resolve fs (split_sep (lit ".")) = Ok fs).
  { destruct comps as [|c comps]; [congruence|]. cbn [enter] in Hent0.
    destruct (entries_of fs) as [esf|] eqn:Ef; [|discriminate].
    change (split_sep (lit ".")) with [lit "."].
    now rewrite (resolve_entries fs esf (lit ".") [] Ef). }
  assert (Hreach : In (lit "./" ++ join_sep (comps ++ more),
                       dir_names es, file_names es)
                      (os_walk fs (lit "."))).
  { unfold os_walk. rewrite Hfs. rewrite <- descend_dot by assumption.
    apply walk_node_reaches; [exact Prc|].
    now rewrite (enter_app comps fs n es0 more Hall Hent0 En). }
  unfold haystack_paths. apply in_flat_map.
  eexists. split; [exact Hreach|]. cbn beta iota.
  assert (Hroot : skip_root (lit "./" ++ join_sep (comps ++ more)) = false).
  { destruct (skip_root (lit "./" ++ join_sep (comps ++ more))) eqn:E;
      [|reflexivity].
    rewrite skip_root_dot_slash in E.
    apply skip_root_extends with (rest := sep :: file) in E.
    rewrite <- join_sep_snoc in E by exact Hrc. congruence. }
  rewrite Hroot. apply in_map_iff. exists file. split.
  - rewrite path_join_under; [|exact Hok | now apply join_sep_not_nil].
    now rewrite path_join_plain.
  - apply filter_In. split; [exact Hf|].
    now apply (endswith_any_incl file extensions).
Qed.

(** X14: on a well-formed tree, when the enumerated directory is reached
    from the working directory through real directories (no link on the
    way), every file [get_files] enumerates there with source or header
    suffixes, and whose path contains neither [build] nor [node_modules],
    is itself one of the files the aggregate scan selects, under its path
    prefixed with [./]; so a header's own text counts as evidence for it. *)
Theorem enumerated_sources_are_scanned
  (fs : node) (comps : list str) (es0 : list (str * node))
  (extensions : list str) (p : str) :
  well_formed fs = true -> comps <> [] -> plain_components comps ->
  enter fs comps = Some es0 ->
  incl extensions source_suffixes ->
  In p (get_files fs (join_sep comps) extensions) ->
  skip_root p = false ->
  In (lit "./" ++ p) (haystack_paths fs).
Proof. apply enumerated_in_haystack. Qed.

Lemma enumerated_sources_are_scanned_witness :
  In (lit "./" ++ lit "include/flow/unused.hpp") (haystack_paths tree_project).
Proof.
  eapply (enumerated_sources_are_scanned tree_project [lit "include"] _
            [lit ".h"; lit ".hpp"]).
  - reflexivity.
  - discriminate.
  - repeat constructor.
  - reflexivity.
  - intros x Hx. vm_compute in Hx |- *. tauto.
  - vm_compute. tauto.
  - reflexivity.
Defined.

(** ** The report as a whole *)

Lemma filter_all {A : Type} (keep : A -> bool) (l : list A) :
  (forall x, In x l -> keep x = true) -> filter keep l = l.
Proof.
  induction l as [|x l IH]; intros H; simpl; [reflexivity|].
  rewrite (H x (or_introl eq_refl)), IH; [reflexivity|].
  intros; apply H; now right.
Qed.

Lemma has_prefix_clash (pre1 pre2 : str) (c1 c2 : codepoint)
  (rest1 rest2 p : str) :
  c1 <> c2 -> p = (c1 :: pre1) ++ rest1 -> p = (c2 :: pre2) ++ rest2 -> False.
Proof. intros Hc -> E. cbn in E. injection E as E _. auto. Qed.

(** X15: in a completed run on a well-formed tree, every reported path lies
    under the root of its section and leads to an entry of the tree that is
    not a directory, and no path is reported twice in the whole report. *)
Theorem report_names_files_once (fs : node) (res : results) (out : str) :
  well_formed fs = true ->
  run fs = (Ok res, out) ->
  (forall p, In p (unused_src res) ->
     HasPrefix (lit "src/") p /\ exists f, resolve fs (split_sep p) = Ok f /\ is_dir f = false) /\
  (forall p, In p (unused_tests res) ->
     HasPrefix (lit "tests/") p /\ exists f, resolve fs (split_sep p) = Ok f /\ is_dir f = false) /\
  (forall p, In p (unused_headers res) ->
     HasPrefix (lit "include/") p /\ exists f, resolve fs (split_sep p) = Ok f /\ is_dir f = false) /\
  (forall p, In p (unused_assets res) ->
     HasPrefix (lit "ui/static/") p /\ exists f, resolve fs (split_sep p) = Ok f /\ is_dir f = false) /\
  NoDup (unused_src res ++ unused_tests res
         ++ unused_headers res ++ unused_assets res).
Proof.
  intros Hwf Hrun.
  destruct (main_completed fs [] res out Hrun)
    as (sc & tc & ac & hc & _ & _ & _ & _ & Es & Et & Eh & Ea & _).
  assert (G : forall comps extensions keep p,
             comps <> [] -> plain_components comps ->
             In p (filter keep (get_files fs (join_sep comps) extensions)) ->
             HasPrefix (join_sep comps ++ [sep]) p /\
             exists f, resolve fs (split_sep p) = Ok f /\ is_dir f = false).
  { intros comps extensions keep p Hne Hall Hin.
    apply filter_In in Hin as [Hin _]. split.
    - now apply (get_files_has_prefix fs comps extensions).
    - now apply (get_files_lists fs comps extensions). }
  assert (Hs : forall p, In p (unused_src res) ->
     HasPrefix (lit "src/") p /\ exists f, resolve fs (split_sep p) = Ok f /\ is_dir f = false).
  { intros p Hp. rewrite Es in Hp.
    apply (G [lit "src"]) in Hp; [exact Hp | discriminate | repeat constructor]. }
  assert (Ht : forall p, In p (unused_tests res) ->
     HasPrefix (lit "tests/") p /\ exists f, resolve fs (split_sep p) = Ok f /\ is_dir f = false).
  { intros p Hp. rewrite Et in Hp.
    apply (G [lit "tests"]) in Hp; [exact Hp | discriminate | repeat constructor]. }
  assert (Hh : forall p, In p (unused_headers res) ->
     HasPrefix (lit "include/") p /\ exists f, resolve fs (split_sep p) = Ok f /\ is_dir f = false).
  { intros p Hp. rewrite Eh in Hp.
    apply (G [lit "include"]) in Hp;
      [exact Hp | discriminate | repeat constructor]. }
  assert (Ha : forall p, In p (unused_assets res) ->
     HasPrefix (lit "ui/static/") p /\ exists f, resolve fs (split_sep p) = Ok f /\ is_dir f = false).
  { intros p Hp. rewrite Ea in Hp.
    apply (G [lit "ui"; lit "static"]) in Hp;
      [exact Hp | discriminate | repeat constructor]. }
  repeat (split; [assumption|]).
  assert (N : forall comps extensions keep,
             comps <> [] -> plain_components comps ->
             NoDup (filter keep (get_files fs (join_sep comps) extensions))).
  { intros. apply NoDup_filter. now apply get_files_nodup. }
  apply NoDup_app; [| apply NoDup_app; [| apply NoDup_app |] |].
  - rewrite Es. apply (N [lit "src"]); [discriminate | repeat constructor].
  - rewrite Et. apply (N [lit "tests"]); [discriminate | repeat constructor].
  - rewrite Eh. apply (N [lit "include"]); [discriminate | repeat constructor].
  - rewrite Ea. apply (N [lit "ui"; lit "static"]);
      [discriminate | repeat constructor].
  - intros p H1 H2. apply Hh in H1 as [[r1 E1] _]. apply Ha in H2 as [[r2 E2] _].
    eapply has_prefix_clash; [|exact E1|exact E2]. discriminate.
  - intros p H1 H2. apply Ht in H1 as [[r1 E1] _].
    apply in_app_iff in H2 as [H2|H2].
    + apply Hh in H2 as [[r2 E2] _].
      eapply has_prefix_clash; [|exact E1|exact E2]. discriminate.
    + apply Ha in H2 as [[r2 E2] _].
      eapply has_prefix_clash; [|exact E1|exact E2]. discriminate.
  - intros p H1 H2. apply Hs in H1 as [[r1 E1] _].
    apply in_app_iff in H2 as [H2|H2]; [|apply in_app_iff in H2 as [H2|H2]].
    + apply Ht in H2 as [[r2 E2] _].
      eapply has_prefix_clash; [|exact E1|exact E2]. discriminate.
    + apply Hh in H2 as [[r2 E2] _].
      eapply has_prefix_clash; [|exact E1|exact E2]. discriminate.
    + apply Ha in H2 as [[r2 E2] _].
      eapply has_prefix_clash; [|exact E1|exact E2]. discriminate.
Qed.

Lemma report_names_files_once_witness :
  exists res out,
    run tree_dangling_asset = (Ok res, out) /\
    unused_assets res = [lit "ui/static/app.js"] /\
    (exists f, resolve tree_dangling_asset (split_sep (lit "ui/static/app.js"))
               = Ok f /\ is_dir f = false).
Proof.
  eexists. eexists. split; [vm_compute; reflexivity|].
  split; [reflexivity|].
  eapply (report_names_files_once tree_dangling_asset);
    [reflexivity | vm_compute; reflexivity | now left].
Defined.

(** ** Runs without a build file or without markup *)

Lemma get_files_rest_not_nil fs comps extensions p :
  well_formed fs = true -> comps <> [] -> plain_components comps ->
  In p (get_files fs (join_sep comps) extensions) ->
  exists rest, rest <> [] /\ p = (join_sep comps ++ [sep]) ++ rest.
Proof.
  intros Hwf Hne Hall Hp.
  destruct (get_files_plain_paths fs comps extensions p Hwf Hne Hall Hp)
    as (more & file & Hmore & Hok & _ & ->).
  exists (join_sep (more ++ [file])). split; [|now rewrite <- app_assoc].
  apply join_sep_not_nil; [app_not_nil|].
  apply Forall_app. split; [exact Hmore | now constructor].
Qed.

Lemma get_files_basename fs comps extensions p :
  well_formed fs = true -> comps <> [] -> plain_components comps ->
  In p (get_files fs (join_sep comps) extensions) ->
  basename p <> [].
Proof.
  intros Hwf Hne Hall Hp.
  destruct (get_files_plain_paths fs comps extensions p Hwf Hne Hall Hp)
    as (more & file & Hmore & Hok & _ & ->).
  destruct (entry_name_ok_inv _ Hok) as (Hfile & Hsep & _).
  assert (E : join_sep comps ++ sep :: join_sep (more ++ [file])
              = join_sep (comps ++ more) ++ sep :: file).
  { rewrite <- join_sep_app by (auto; app_not_nil).
    rewrite app_assoc. apply join_sep_snoc. app_not_nil. }
  rewrite E, (proj1 basename_spec _ _ Hsep). exact Hfile.
Qed.

(** X16: in a completed run on a well-formed tree, a build file that is not
    found makes every enumerated file of its root a finding: without
    [src/CMakeLists.txt] the sources list is the whole of the enumerated
    sources, and likewise for the tests. *)
Theorem missing_build_file_reports_every_file
  (fs : node) (res : results) (out : str) :
  well_formed fs = true ->
  run fs = (Ok res, out) ->
  (open_bytes fs (lit "src/CMakeLists.txt") = Raise FileNotFoundError ->
   unused_src res = get_files fs (lit "src") [lit ".cpp"; lit ".c"]) /\
  (open_bytes fs (lit "tests/CMakeLists.txt") = Raise FileNotFoundError ->
   unused_tests res = get_files fs (lit "tests") [lit ".cpp"; lit ".c"]).
Proof.
  intros Hwf Hrun.
  destruct (main_completed fs [] res out Hrun)
    as (sc & tc & ac & hc & Hsc & Htc & _ & _ & Es & Et & _).
  split; intros Hmiss.
  - rewrite (read_file_missing _ _ Hmiss) in Hsc. injection Hsc as <-.
    rewrite Es. apply filter_all. intros f Hf.
    destruct (get_files_rest_not_nil fs [lit "src"] _ f Hwf
                ltac:(discriminate) ltac:(repeat constructor) Hf)
      as (rest & Hne & ->).
    unfold src_unused. apply negb_true_iff.
    change (join_sep [lit "src"] ++ [sep]) with (lit "src/").
    rewrite check_cmake_usage_src. now apply contains_empty_hay.
  - rewrite (read_file_missing _ _ Hmiss) in Htc. injection Htc as <-.
    rewrite Et. apply filter_all. intros f Hf.
    destruct (get_files_rest_not_nil fs [lit "tests"] _ f Hwf
                ltac:(discriminate) ltac:(repeat constructor) Hf)
      as (rest & Hne & ->).
    unfold src_unused. apply negb_true_iff.
    change (join_sep [lit "tests"] ++ [sep]) with (lit "tests/").
    rewrite check_cmake_usage_tests. now apply contains_empty_hay.
Qed.

Lemma missing_build_file_reports_every_file_witness :
  exists res out,
    run tree_unlisted = (Ok res, out) /\
    unused_src res = get_files tree_unlisted (lit "src") [lit ".cpp"; lit ".c"] /\
    unused_src res = [lit "src/a.cpp"; lit "src/util/b.c"].
Proof.
  eexists. eexists. split; [vm_compute; reflexivity|]. split.
  - eapply (missing_build_file_reports_every_file tree_unlisted);
      [reflexivity | vm_compute; reflexivity | reflexivity].
  - reflexivity.
Defined.

(** X17: in a completed run on a well-formed tree with no markup file below
    [ui], every enumerated asset is a finding. *)
Theorem no_markup_reports_every_asset
  (fs : node) (res : results) (out : str) :
  well_formed fs = true ->
  run fs = (Ok res, out) ->
  markup_paths fs = [] ->
  unused_assets res = get_files fs (lit "ui/static") [lit ".js"; lit ".css"].
Proof.
  intros Hwf Hrun Hnone.
  destruct (main_completed fs [] res out Hrun)
    as (sc & tc & ac & hc & _ & _ & _ & Hhc & _ & _ & _ & Ea & _).
  rewrite load_html_content_read_concat, Hnone in Hhc.
  cbn in Hhc. injection Hhc as <-.
  rewrite Ea. apply filter_all. intros asset Ha.
  unfold asset_unused. apply negb_true_iff. apply contains_empty_hay.
  apply (get_files_basename fs [lit "ui"; lit "static"]
           [lit ".js"; lit ".css"] asset Hwf);
    [discriminate | repeat constructor | exact Ha].
Qed.

Lemma no_markup_reports_every_asset_witness :
  exists res out,
    run tree_unlisted = (Ok res, out) /\
    unused_assets res
    = get_files tree_unlisted (lit "ui/static") [lit ".js"; lit ".css"] /\
    unused_assets res = [lit "ui/static/app.js"].
Proof.
  eexists. eexists. split; [vm_compute; reflexivity|]. split.
  - eapply (no_markup_reports_every_asset tree_unlisted);
      [reflexivity | vm_compute; reflexivity | reflexivity].
  - reflexivity.
Defined.
